(** * bigg/experiments/sat_graphs/main.py: graph store, CNF codec, edge
      canonicaliser, training loop and evaluation runner

    A shallow embedding of [main.py].  Python integers are [Z] (positions in
    a list are [nat]), Python lists are [list], text is [string].  A
    [networkx.Graph] is the ordered adjacency structure the library keeps (a
    dict of dicts, both in insertion order).  Exceptions are an explicit
    error type.  The model, the optimizer and the tree library are outside
    the file; the calls made to them are recorded in a trace, and what the
    model answers is a function of the trace so far. *)

From Stdlib Require Import ZArith QArith String Ascii DecimalString.
From Stdlib Require Import DecimalPos DecimalZ.
From stdpp Require Import base decidable option list sorting strings gmap.

Local Open Scope Z_scope.

(** ** Exceptions *)

Inductive exn :=
| AssertionError
| ZeroDivisionError
| EOFError
| UnpicklingError
| KeyboardInterrupt
| IndexError
| NetworkXError.

Inductive outcome (A : Type) :=
| Ok (a : A)
| Raise (e : exn).
Arguments Ok {A} a.
Arguments Raise {A} e.

Definition obind {A B} (m : outcome A) (k : A → outcome B) : outcome B :=
  match m with
  | Ok a => k a
  | Raise e => Raise e
  end.

(** [l[i]] for an index that is not negative *)
Definition getitem {A} (l : list A) (i : nat) : outcome A :=
  match l !! i with
  | Some a => Ok a
  | None => Raise IndexError
  end.

(** [l[:stop]] *)
Definition slice_to {A} (l : list A) (stop : Z) : list A :=
  if decide (stop < 0)
  then take (Z.to_nat (Z.of_nat (length l) + stop)) l
  else take (Z.to_nat stop) l.

(** [range(n)] *)
Definition range (n : Z) : list Z := Z.of_nat <$> seq 0 (Z.to_nat n).

(** [a % b] on integers; the sign of the result is the sign of [b], as that
    of [Z.modulo]. *)
Definition py_mod (a b : Z) : outcome Z :=
  if decide (b = 0) then Raise ZeroDivisionError else Ok (a mod b).

(** [b] is a multiple of [a]. *)
Global Instance Z_divide_decision (a b : Z) : Decision (a | b).
Proof.
  destruct (decide (a = 0)) as [->|Ha].
  - destruct (decide (b = 0)) as [->|Hb].
    + left. apply Z.divide_0_r.
    + right. by intros H%Z.divide_0_l.
  - destruct (decide (b mod a = 0)) as [Hm|Hm].
    + left. by apply Z.mod_divide.
    + right. intros H. by apply Hm, Z.mod_divide.
Defined.

(** Floats are taken as the rationals they stand for.  [a / b] on Python
    numbers raises when [b] is zero; on a torch tensor it gives an infinity
    or a NaN instead. *)
Definition float_div (a : Q) (b : Z) : outcome Q :=
  if decide (b = 0) then Raise ZeroDivisionError else Ok (a / inject_Z b)%Q.

Inductive tensor :=
| finite (q : Q)
| nonfinite.

Definition tensor_div (a : Q) (b : Z) : tensor :=
  if decide (b = 0) then nonfinite else finite (a / inject_Z b)%Q.

(** ** networkx.Graph *)

Module Nx.

(** [_adj]: every node, in insertion order, with its neighbours in insertion
    order.  Node labels are the integers the scripts use. *)
Record Graph := mk { adj : list (Z * list Z) }.

Definition empty : Graph := mk [].

Fixpoint lookup_adj (a : list (Z * list Z)) (n : Z) : option (list Z) :=
  match a with
  | [] => None
  | (k, nbrs) :: a' => if decide (k = n) then Some nbrs else lookup_adj a' n
  end.

(** [list(graph.nodes())] *)
Definition nodes (g : Graph) : list Z := (adj g).*1.

(** [len(graph)] *)
Definition len (g : Graph) : Z := Z.of_nat (length (adj g)).

(** [list(graph.neighbors(node))]; networkx raises for a node that is not in
    the graph. *)
Definition neighbors (g : Graph) (n : Z) : outcome (list Z) :=
  match lookup_adj (adj g) n with
  | Some nbrs => Ok nbrs
  | None => Raise NetworkXError
  end.

(** [graph.degree(n)] for one node: the number of its neighbours, a
    self-loop counted twice; networkx raises for a node that is not in the
    graph. *)
Definition degree (g : Graph) (n : Z) : outcome Z :=
  match lookup_adj (adj g) n with
  | Some nbrs =>
      Ok (Z.of_nat (length nbrs) + (if decide (n ∈ nbrs) then 1 else 0))
  | None => Raise NetworkXError
  end.

(** [graph.edges()]: the edge view walks the nodes in order and reports
    [(n, nbr)] unless [nbr] was walked before, so that every undirected edge
    and every self-loop is reported once. *)
Fixpoint edges_from (seen : list Z) (a : list (Z * list Z)) : list (Z * Z) :=
  match a with
  | [] => []
  | (n, nbrs) :: a' =>
      ((λ nbr, (n, nbr)) <$> filter (λ nbr, nbr ∉ seen) nbrs)
        ++ edges_from (n :: seen) a'
  end.

Definition edges (g : Graph) : list (Z * Z) := edges_from [] (adj g).

(** What the dicts of networkx give for free: no node twice, no neighbour
    twice. *)
Definition wf (g : Graph) : Prop :=
  NoDup (adj g).*1 ∧ Forall (λ kn, NoDup kn.2) (adj g).

Global Instance wf_dec (g : Graph) : Decision (wf g).
Proof. unfold wf. apply _. Defined.

(** An undirected graph: every neighbour is a node and has the node among
    its own neighbours. *)
Definition symmetric (g : Graph) : Prop :=
  ∀ u v nbrs, lookup_adj (adj g) u = Some nbrs → v ∈ nbrs →
    ∃ nbrs', lookup_adj (adj g) v = Some nbrs' ∧ u ∈ nbrs'.

(** [add_node] as [add_edges_from] does it: a node that is new gets an empty
    neighbour dict at the end. *)
Definition touch (a : list (Z * list Z)) (n : Z) : list (Z * list Z) :=
  match lookup_adj a n with
  | Some _ => a
  | None => a ++ [(n, [])]
  end.

(** [adj[u][v] = {}]: [v] is appended to the neighbours of [u] unless it is
    one already. *)
Fixpoint link (a : list (Z * list Z)) (u v : Z) : list (Z * list Z) :=
  match a with
  | [] => []
  | (k, nbrs) :: a' =>
      if decide (k = u)
      then (k, if decide (v ∈ nbrs) then nbrs else nbrs ++ [v]) :: a'
      else (k, nbrs) :: link a' u v
  end.

Definition add_edge (g : Graph) (e : Z * Z) : Graph :=
  let '(u, v) := e in
  mk (link (link (touch (touch (adj g) u) v) u v) v u).

(** [graph.add_edges_from(ebunch)] *)
Definition add_edges_from (g : Graph) (ebunch : list (Z * Z)) : Graph :=
  foldl add_edge g ebunch.

End Nx.

(** ** list.sort(key=...) *)

(** Python's sort is stable: elements with equal keys keep their order.  A
    stable sort has one possible result, computed here by insertion. *)
Section sort_by.
Context {A : Type} (key : A → Z).

Fixpoint insert_by (x : A) (l : list A) : list A :=
  match l with
  | [] => [x]
  | y :: l' => if decide (key x ≤ key y) then x :: y :: l' else y :: insert_by x l'
  end.

Definition sort_by (l : list A) : list A := foldr insert_by [] l.

Definition key_le (x y : A) : Prop := key x ≤ key y.
End sort_by.

(** ** get_ordered_edges *)

(** One turn of the loop body: swap the endpoints when they are out of
    order, then shift the second one. *)
Definition ordered_edge (offset : Z) (e : Z * Z) : Z * Z :=
  let e := if decide (e.1 > e.2) then (e.2, e.1) else e in
  (e.1, e.2 - offset).

Definition get_ordered_edges (g : Nx.Graph) (offset : Z) : list (Z * Z) :=
  let true_edges :=
    foldl (λ acc e, acc ++ [ordered_edge offset e]) [] (Nx.edges g) in
  sort_by fst true_edges.


(** ** LCG_to_sat *)

Definition nl : string := String (ascii_of_nat 10) EmptyString.

(** ["{}".format(i)] for an integer [i] *)
Definition format_int (i : Z) : string := NilZero.string_of_int (Z.to_int i).

(** The inner loop over the neighbours of one clause node; [clause] is the
    text built so far. *)
Fixpoint clause_loop (num_var : Z) (clause : string) (neighbors : list Z)
  : outcome string :=
  match neighbors with
  | [] => Ok clause
  | lit :: rest =>
      if decide (lit < num_var)
      then clause_loop num_var (clause +:+ format_int (lit + 1) +:+ " ") rest
      else if decide (lit < 2 * num_var)
      then clause_loop num_var
             (clause +:+ format_int (- (lit - num_var + 1)) +:+ " ") rest
      else Raise AssertionError
  end.

(** The outer loop over the nodes; [clauses] is the list built so far. *)
Fixpoint node_loop (graph : Nx.Graph) (num_var : Z) (clauses : list string)
    (nodes : list Z) : outcome (list string) :=
  match nodes with
  | [] => Ok clauses
  | node :: rest =>
      if decide (node >= num_var * 2)
      then
        obind (Nx.neighbors graph node) (λ neighbors,
          if decide (length neighbors = 0%nat)
          then node_loop graph num_var clauses rest
          else
            obind (clause_loop num_var "" neighbors) (λ clause,
              node_loop graph num_var (clauses ++ [clause +:+ "0" +:+ nl]) rest))
      else node_loop graph num_var clauses rest
  end.

(** What the three [out_file.write] sites put into the file, in order. *)
Definition cnf_writes (num_var : Z) (clauses : list string) : list string :=
  ("c generated by G2SAT lcg" +:+ nl)
    :: ("p cnf " +:+ format_int num_var +:+ " "
          +:+ format_int (Z.of_nat (length clauses)) +:+ nl)
    :: clauses.

(** [fs] holds the files of the run, path to content.  The file is opened
    (and truncated) only after the loops, so that a failed assertion leaves
    the files as they were. *)
Definition LCG_to_sat (graph : Nx.Graph) (save_name : string) (num_var : Z)
    (fs : gmap string string) : outcome unit * gmap string string :=
  match node_loop graph num_var [] (Nx.nodes graph) with
  | Ok clauses =>
      (Ok (), <[save_name := String.concat "" (cnf_writes num_var clauses)]> fs)
  | Raise e => (Raise e, fs)
  end.

(** The lines of a text, as [str.splitlines] gives them. *)
Fixpoint lines (s : string) : list string :=
  match s with
  | EmptyString => []
  | String c s' =>
      if decide (c = ascii_of_nat 10) then EmptyString :: lines s'
      else match lines s' with
           | [] => [String c EmptyString]
           | l :: ls => String c l :: ls
           end
  end.

(** The DIMACS literal of a literal node: variable [lit + 1] for a node
    below [num_var], the negation of variable [lit - num_var + 1] above. *)
Definition dimacs_literal (num_var : Z) (lit : Z) : Z :=
  if decide (lit < num_var) then lit + 1 else - (lit - num_var + 1).


(** A neighbour the assertion of the inner loop rejects. *)
Definition rejected_lit (num_var : Z) (lit : Z) : Prop :=
  num_var ≤ lit ∧ 2 * num_var ≤ lit.

Global Instance rejected_lit_dec nv lit : Decision (rejected_lit nv lit).
Proof. unfold rejected_lit. apply _. Defined.

(** A clause node with a neighbour the assertion rejects. *)
Definition rejected_node (graph : Nx.Graph) (num_var : Z) (node : Z) : Prop :=
  node >= num_var * 2
  ∧ ∃ nbrs, Nx.neighbors graph node = Ok nbrs ∧ Exists (rejected_lit num_var) nbrs.


(** ** load_graphs *)

(** A pickle file is what its successive [cp.load(f)] calls do: give the
    next record, or raise (a damaged record, an interrupt, ...).  Past the
    last record [cp.load] raises [EOFError]. *)
Inductive record (A : Type) :=
| Rec (a : A)
| Damaged (e : exn).
Arguments Rec {A} a.
Arguments Damaged {A} e.

Definition cp_load {A} (f : list (record A)) : outcome A * list (record A) :=
  match f with
  | [] => (Raise EOFError, [])
  | Rec a :: f' => (Ok a, f')
  | Damaged e :: f' => (Raise e, f')
  end.

(** The [while True] loop; the bare [except:] leaves it on any exception. *)
Fixpoint read_loop {A} (graphs : list A) (f : list (record A)) : list A :=
  match cp_load f, f with
  | (Ok g, _), _ :: f' => read_loop (graphs ++ [g]) f'
  | _, _ => graphs
  end.

(** The tree library keeps what [TreeLib.InsertGraph] was given, in order. *)
Definition InsertGraph (lib : list (Nx.Graph * (Z * Z))) (g : Nx.Graph)
    (bipart_stats : Z * Z) : list (Nx.Graph * (Z * Z)) :=
  lib ++ [(g, bipart_stats)].

Definition load_graphs (graph_pkl : list (record Nx.Graph))
    (stats_pkl : list (record (list (Z * Z))))
    (lib : list (Nx.Graph * (Z * Z)))
  : outcome (list Nx.Graph * list (Z * Z)) * list (Nx.Graph * (Z * Z)) :=
  let graphs := read_loop [] graph_pkl in
  match cp_load stats_pkl with
  | (Raise e, _) => (Raise e, lib)
  | (Ok stats, _) =>
      if decide (length graphs = length stats)
      then
        (Ok (graphs, stats),
         foldl (λ lib gs, let '(n, m) := gs.2 in InsertGraph lib gs.1 (n, m))
           lib (zip graphs stats))
      else (Raise AssertionError, lib)
  end.

(** ** The training loop *)

Record cmd_args := {
  batch_size : Z;
  blksize : Z;
  accum_grad : Z;
  grad_clip : Q;
  epoch_save : Z;
  num_epochs : Z
}.

(** The calls that leave the script. *)
Inductive call :=
| zero_grad
| forward_train (batch_indices : list nat) (list_col_ranges : list (Z * Z))
| backward (loss : tensor)
| sqrtn_forward_backward (graph_ids : list nat) (list_node_starts : list Z)
    (num_nodes : Z) (blksize : Z) (loss_scale : Q)
    (list_col_ranges : list (Z * Z))
| clip_grad_norm_ (max_norm : Q)
| optimizer_step
| set_description (epoch idx : Z) (loss : tensor)
| torch_save (epoch : Z).

(** What changes while the loop runs: the calls made so far, the index pool
    (shuffled in place) and the random numbers still to come. *)
Record world := World {
  trace : list call;
  indices : list nat;
  tape : list nat
}.

Definition M (A : Type) : Type := world → outcome A * world.

Definition ret {A} (a : A) : M A := λ w, (Ok a, w).

Definition bind {A B} (m : M A) (k : A → M B) : M B := λ w,
  match m w with
  | (Ok a, w') => k a w'
  | (Raise e, w') => (Raise e, w')
  end.

Notation "x <- m ;; k" := (bind m (λ x, k))
  (at level 100, m at next level, right associativity).
Notation "m ;;; k" := (bind m (λ _, k))
  (at level 100, right associativity).

Definition lift {A} (o : outcome A) : M A := λ w, (o, w).

Definition emit (c : call) : M unit := λ w,
  (Ok (), World (trace w ++ [c]) (indices w) (tape w)).

(** [for x in l: body x] *)
Fixpoint for_each {A} (l : list A) (body : A → M unit) : M unit :=
  match l with
  | [] => ret ()
  | x :: l' => body x ;;; for_each l' body
  end.

(** *** random.shuffle *)

(** [randbelow(n)]: the next number of the tape, brought below [n]. *)
Definition randbelow (n : nat) (tape : list nat) : nat * list nat :=
  match tape with
  | [] => (0%nat, [])
  | r :: tape' => ((r mod n)%nat, tape')
  end.

(** [x[i], x[j] = x[j], x[i]] *)
Definition swap (x : list nat) (i j : nat) : list nat :=
  match x !! i, x !! j with
  | Some a, Some b => <[j := a]> (<[i := b]> x)
  | _, _ => x
  end.

(** [for i in reversed(range(1, len(x))): j = randbelow(i + 1); swap];
    the argument is the index the loop is at. *)
Fixpoint shuffle_loop (i : nat) (x : list nat) (tape : list nat)
  : list nat * list nat :=
  match i with
  | O => (x, tape)
  | S i' =>
      let '(j, tape') := randbelow (S i) tape in
      shuffle_loop i' (swap x i j) tape'
  end.

Definition shuffle (x : list nat) (tape : list nat) : list nat * list nat :=
  shuffle_loop (length x - 1) x tape.

Section training.
(** The log-likelihood a model call returns, given the calls before it. *)
Variable model_ll : list call → call → Q.
Variable args : cmd_args.
Variable train_graphs : list Nx.Graph.
Variable stats : list (Z * Z).

Definition ask (c : call) : M Q := λ w,
  (Ok (model_ll (trace w) c), World (trace w ++ [c]) (indices w) (tape w)).

(** [random.shuffle(indices); batch_indices = indices[:batch_size]] *)
Definition draw_batch : M (list nat) := λ w,
  let '(x, tape') := shuffle (indices w) (tape w) in
  (Ok (slice_to x (batch_size args)), World (trace w) x tape').

(** [sum([len(train_graphs[i]) for i in batch_indices])] *)
Fixpoint total_nodes (batch_indices : list nat) : outcome Z :=
  match batch_indices with
  | [] => Ok 0
  | i :: rest =>
      obind (getitem train_graphs i) (λ g,
        obind (total_nodes rest) (λ s, Ok (Nx.len g + s)))
  end.

(** [[(0, stats[i][1]) for i in batch_indices]] *)
Fixpoint col_ranges (batch_indices : list nat) : outcome (list (Z * Z)) :=
  match batch_indices with
  | [] => Ok []
  | i :: rest =>
      obind (getitem stats i) (λ st,
        obind (col_ranges rest) (λ cs, Ok ((0, st.2) :: cs)))
  end.

(** The [for i in batch_indices] loop of the chunked branch; [ll] is the
    running sum. *)
Fixpoint chunked_loop (ll : Q) (batch_indices : list nat) : M Q :=
  match batch_indices with
  | [] => ret ll
  | i :: rest =>
      g <- lift (getitem train_graphs i) ;;
      let n := Nx.len g in
      st <- lift (getitem stats i) ;;
      loss_scale <- lift (float_div 1 n) ;;
      cur_ll <- ask (sqrtn_forward_backward [i] [0] st.1 (blksize args)
                       loss_scale [(0, st.2)]) ;;
      chunked_loop (ll + cur_ll)%Q rest
  end.

(** Lines 148 to 161: the loss of one batch and its gradient. *)
Definition train_batch (batch_indices : list nat) : M tensor :=
  num_nodes <- lift (total_nodes batch_indices) ;;
  if decide (blksize args < 0 ∨ num_nodes ≤ blksize args)
  then
    cols <- lift (col_ranges batch_indices) ;;
    ll <- ask (forward_train batch_indices cols) ;;
    let loss := tensor_div (- ll) num_nodes in
    emit (backward loss) ;;;
    ret loss
  else
    ll <- chunked_loop 0 batch_indices ;;
    loss <- lift (float_div (- ll) num_nodes) ;;
    ret (finite loss).

(** Lines 169 to 173 *)
Definition maybe_step (idx : Z) : M unit :=
  r <- lift (py_mod (idx + 1) (accum_grad args)) ;;
  if decide (r = 0)
  then
    (if Qlt_le_dec 0 (grad_clip args)
     then emit (clip_grad_norm_ (grad_clip args))
     else ret ()) ;;;
    emit optimizer_step ;;;
    emit zero_grad
  else ret ().

Definition train_step (epoch idx : Z) : M unit :=
  batch_indices <- draw_batch ;;
  loss <- train_batch batch_indices ;;
  maybe_step idx ;;;
  emit (set_description epoch idx loss).

Definition train_epoch (epoch : Z) : M unit :=
  emit zero_grad ;;;
  for_each (range (epoch_save args)) (train_step epoch) ;;;
  emit (torch_save epoch).

Definition train : M unit :=
  for_each (range (num_epochs args)) train_epoch.

(** [indices = list(range(len(train_graphs)))] and nothing called yet. *)
Definition start (tape : list nat) : world :=
  World [] (seq 0 (length train_graphs)) tape.
End training.

(** The node count of the [i]-th training graph and the stats pair of the
    [i]-th graph, for an [i] in range. *)
Definition graph_len (train_graphs : list Nx.Graph) (i : nat) : Z :=
  from_option Nx.len 0 (train_graphs !! i).

Definition stat_of (stats : list (Z * Z)) (i : nat) : Z * Z :=
  default (0, 0) (stats !! i).

(** The two calls the branches of [train_batch] are expected to make. *)
Definition whole_call (stats : list (Z * Z)) (batch_indices : list nat) : call :=
  forward_train batch_indices ((λ i, (0, (stat_of stats i).2)) <$> batch_indices).

Definition chunk_call (args : cmd_args) (train_graphs : list Nx.Graph)
    (stats : list (Z * Z)) (i : nat) : call :=
  sqrtn_forward_backward [i] [0] (stat_of stats i).1 (blksize args)
    (1 / inject_Z (graph_len train_graphs i))%Q [(0, (stat_of stats i).2)].

(** What a call does to the gradients the optimizer will see. *)
Definition is_optimizer_call (c : call) : bool :=
  match c with
  | clip_grad_norm_ _ | optimizer_step | zero_grad => true
  | _ => false
  end.

Definition adds_gradient (c : call) : bool :=
  match c with
  | backward _ | sqrtn_forward_backward _ _ _ _ _ _ => true
  | _ => false
  end.

(** The gradient contributions in the buffers after the calls of [t]: those
    made since the last reset, oldest first. *)
Definition pending (t : list call) : list call :=
  foldl (λ acc c,
           match c with
           | zero_grad => []
           | _ => if adds_gradient c then acc ++ [c] else acc
           end) [] t.

(** ** The evaluation loop *)

(** The [print] of one evaluated graph. *)
Record report := Report {
  n_pred : nat;
  n_true : nat;
  precision : Q;
  recall : Q
}.

(** [a / b] on two lengths *)
Definition len_div (a b : nat) : outcome Q :=
  if decide (b = 0%nat) then Raise ZeroDivisionError
  else Ok (inject_Z (Z.of_nat a) / inject_Z (Z.of_nat b))%Q.

(** Lines 126 to 129; [generated] is the edge list the model returned. *)
Definition eval_report (generated : list (Z * Z)) (g : Nx.Graph)
    (stat : Z * Z) : outcome report :=
  let pred_edges := (λ e : Z * Z, (e.1, e.2 + stat.1)) <$> generated in
  let true_edges := get_ordered_edges g 0 in
  let common : gset (Z * Z) := list_to_set pred_edges ∩ list_to_set true_edges in
  obind (len_div (size common) (length pred_edges)) (λ p,
    obind (len_div (size common) (length true_edges)) (λ r,
      Ok (Report (length pred_edges) (length true_edges) p r))).

(** [[g.degree(i) for i in l]]: the first index that is no node of the
    graph raises. *)
Fixpoint degrees (g : Nx.Graph) (l : list Z) : outcome (list Z) :=
  match l with
  | [] => Ok []
  | i :: rest =>
      obind (Nx.degree g i) (λ d,
        obind (degrees g rest) (λ ds, Ok (d :: ds)))
  end.

(** Line 123: [degree_list = [g.degree(i) for i in range(stat[0])]] *)
Definition degree_list (g : Nx.Graph) (stat : Z * Z) : outcome (list Z) :=
  degrees g (range stat.1).

Section evaluation.
(** The edges the generation call of line 125 returns (its second
    component), from what the call is handed: the left size [stat[0]],
    [lb_list], [ub_list], [col_range] and [num_nodes]. *)
Variable generate : Z → list Z → list Z → Z * Z → Z → list (Z * Z).

(** Lines 123 to 125: the degree list, then the generation call with the
    degrees as lower and as upper bounds. *)
Definition generated_edges (g : Nx.Graph) (stat : Z * Z)
  : outcome (list (Z * Z)) :=
  obind (degree_list g stat) (λ degs,
    Ok (generate stat.1 degs degs (0, stat.2) (Nx.len g))).

(** Lines 123 to 134: one turn of the evaluation loop: the degree list, the
    generation, the report, then the CNF file of the generated graph. *)
Definition eval_graph (g : Nx.Graph) (stat : Z * Z) (out_dir : string)
    (g_idx : Z) (fs : gmap string string)
  : outcome report * gmap string string :=
  match generated_edges g stat with
  | Raise e => (Raise e, fs)
  | Ok generated =>
      match eval_report generated g stat with
      | Raise e => (Raise e, fs)
      | Ok rep =>
          let pred_edges := (λ e : Z * Z, (e.1, e.2 + stat.1)) <$> generated in
          let out_file := out_dir +:+ "/gen_" +:+ format_int g_idx +:+ ".cnf" in
          let pred_g := Nx.add_edges_from Nx.empty pred_edges in
          match LCG_to_sat pred_g out_file (stat.1 `div` 2) fs with
          | (Ok _, fs') => (Ok rep, fs')
          | (Raise e, fs') => (Raise e, fs')
          end
      end
  end.
End evaluation.

(** ** The start of the script *)

(** Lines 98 to 102: the largest left size and the largest right size met in
    the stats, both starting from 0. *)
Definition max_sides (stats : list (Z * Z)) : Z * Z :=
  foldl (λ acc nm, (Z.max acc.1 nm.1, Z.max acc.2 nm.2)) (0, 0) stats.

(** Line 103 *)
Definition max_num_nodes (stats : list (Z * Z)) : Z :=
  Z.max (max_sides stats).1 (max_sides stats).2.

(** ** The evaluation loop as a whole *)

Section evaluation_loop.
Variable generate : Z → list Z → list Z → Z * Z → Z → list (Z * Z).

End evaluation_loop.

(** The file of the [g_idx]-th evaluated graph. *)
Definition gen_file (out_dir : string) (g_idx : Z) : string :=
  out_dir +:+ "/gen_" +:+ format_int g_idx +:+ ".cnf".

(** Kinds of calls. *)
Definition is_model_call (c : call) : bool :=
  match c with
  | forward_train _ _ | backward _ | sqrtn_forward_backward _ _ _ _ _ _ => true
  | _ => false
  end.

Definition is_step (c : call) : bool :=
  match c with
  | optimizer_step => true
  | _ => false
  end.

Definition is_save (c : call) : bool :=
  match c with
  | torch_save _ => true
  | _ => false
  end.

(** ** minigrid_basics/examples/rw_tabular.py *)

Module RwTabular.

(** What [env.step] returns, as far as the script reads it: [obs['state']],
    the reward and [done]. *)
Record step_result := {
  obs_state : Z;
  reward : Q;
  done : bool
}.

(** What the script prints and writes. *)
Inductive output :=
| makedirs (path : string)
| print_state (t : Z) (s : Z)
| savefig (path : string)
| print_return (r : Q).

Record run := Run {
  num_frames : Z;
  undisc_return : Q;
  out : list output
}.

Definition max_num_frames : Z := 500.

Section main.
(** The answer of the environment to the step taken after [num_frames]
    frames. *)
Variable env_step : Z → step_result.
(** [FLAGS.file_path], and whether it exists. *)
Variable file_path : string.
Variable file_path_exists : bool.

(** The body of the loop up to the test of [done]. *)
Definition frame (st : run) : run * bool :=
  let r := env_step (num_frames st) in
  let undisc := (undisc_return st + reward r)%Q in
  let n := num_frames st + 1 in
  let path := file_path +:+ format_int n +:+ ".png" in
  (Run n undisc (out st ++ [print_state n (obs_state r); savefig path]), done r).

(** [while num_frames < max_num_frames: ...; if done: break]; the first
    argument bounds the number of turns. *)
Fixpoint while_loop (fuel : nat) (st : run) : run :=
  match fuel with
  | O => st
  | S fuel' =>
      if decide (num_frames st < max_num_frames)
      then let '(st', d) := frame st in
           if d then st' else while_loop fuel' st'
      else st
  end.

(** [main(argv)]: [None] is the usage error. *)
Definition main (argv : list string) : option run :=
  if decide (1 < length argv)%nat then None
  else
    let out0 := if file_path_exists then [] else [makedirs file_path] in
    let st := while_loop (Z.to_nat max_num_frames) (Run 0 0 out0) in
    Some (Run (num_frames st) (undisc_return st)
            (out st ++ [print_return (undisc_return st)])).
End main.

Definition is_savefig (o : output) : bool :=
  match o with
  | savefig _ => true
  | _ => false
  end.

End RwTabular.

(** A text in which the character [c] does not occur. *)
Fixpoint lacks (c : ascii) (s : string) : bool :=
  match s with
  | EmptyString => true
  | String x s' => negb (bool_decide (x = c)) && lacks c s'
  end.

(** [w] is among the neighbours the graph keeps for [x]. *)
Definition adjacent (a : list (Z * list Z)) (x w : Z) : Prop :=
  ∃ nbrs, Nx.lookup_adj a x = Some nbrs ∧ w ∈ nbrs.

(** The optimizer calls of the step with index [idx] (lines 169 to 173),
    and the steps of the optimizer among them. *)
Definition step_calls (args : cmd_args) (idx : Z) : list call :=
  if decide (accum_grad args | idx + 1)
  then (if Qlt_le_dec 0 (grad_clip args)
        then [clip_grad_norm_ (grad_clip args)] else [])
       ++ [optimizer_step; zero_grad]
  else [].

Definition step_taken (args : cmd_args) (idx : Z) : list call :=
  if decide (accum_grad args | idx + 1) then [optimizer_step] else [].

(** The frames [a, ..., a + k - 1], and the paths handed to [plt.savefig]
    among what a run puts out. *)
Definition frames (a : Z) (k : nat) : list Z :=
  (λ i, a + Z.of_nat i) <$> seq 0 k.

Definition saved_paths (o : list RwTabular.output) : list string :=
  omap (λ x, match x with RwTabular.savefig p => Some p | _ => None end) o.

(** ** Sample data *)

Definition demo_args : cmd_args :=
  {| batch_size := 2; blksize := 1; accum_grad := 2; grad_clip := 5;
     epoch_save := 4; num_epochs := 1 |}.

(** Three steps an epoch, the optimizer stepped every second step. *)
Definition odd_args : cmd_args :=
  {| batch_size := 2; blksize := 1; accum_grad := 2; grad_clip := 5;
     epoch_save := 3; num_epochs := 1 |}.

(** An environment that pays 1 a step and is done with its third step. *)
Definition demo_env (t : Z) : RwTabular.step_result :=
  {| RwTabular.obs_state := t; RwTabular.reward := 1;
     RwTabular.done := bool_decide (t = 2) |}.

(** Variables 1 and 2, one clause [1 -2]: nodes 0 to 3 are the literals,
    node 4 is the clause. *)
Definition demo_graph : Nx.Graph :=
  Nx.mk [(0, [4]); (1, []); (2, []); (3, [4]); (4, [0; 3])].

(** The same nodes and no edge. *)
Definition bare_graph : Nx.Graph :=
  Nx.mk [(0, []); (1, []); (2, []); (3, []); (4, [])].

(** * Properties *)

Section sort_by_facts.
Context {A : Type} (key : A → Z).

Lemma insert_by_Permutation x l : insert_by key x l ≡ₚ x :: l.
Proof.
  induction l as [|y l IH]; simpl; [done|].
  case_decide; [done|]. rewrite IH. apply Permutation_swap.
Qed.

Lemma sort_by_Permutation l : sort_by key l ≡ₚ l.
Proof.
  induction l as [|x l IH]; simpl; [done|].
  rewrite insert_by_Permutation. by constructor.
Qed.

Lemma insert_by_HdRel a x l :
  key_le key a x → HdRel (key_le key) a l → HdRel (key_le key) a (insert_by key x l).
Proof.
  intros Hax Hal. destruct l as [|y l]; simpl; [by constructor|].
  case_decide; constructor; [done|]. by inversion Hal.
Qed.

Lemma insert_by_Sorted x l :
  Sorted (key_le key) l → Sorted (key_le key) (insert_by key x l).
Proof.
  induction 1 as [|y l Hs IH Hhd]; simpl.
  - by repeat constructor.
  - case_decide.
    + repeat constructor; done.
    + constructor; [done|]. apply insert_by_HdRel; [|done].
      unfold key_le. lia.
Qed.

Lemma sort_by_Sorted l : Sorted (key_le key) (sort_by key l).
Proof.
  induction l as [|x l IH]; simpl; [constructor|].
  by apply insert_by_Sorted.
Qed.

(** Stability: among the elements of one key the order is the input's. *)
Lemma insert_by_filter (k : Z) x l :
  Sorted (key_le key) l →
  filter (λ y, key y = k) (insert_by key x l)
  = filter (λ y, key y = k) (x :: l).
Proof.
  induction 1 as [|y l Hs IH Hhd]; simpl; [done|].
  case_decide as Hxy; [done|].
  rewrite !filter_cons in *. rewrite IH.
  destruct (decide (key y = k)), (decide (key x = k)); try done.
  lia.
Qed.

Lemma sort_by_stable (k : Z) l :
  filter (λ y, key y = k) (sort_by key l) = filter (λ y, key y = k) l.
Proof.
  induction l as [|x l IH]; simpl; [done|].
  rewrite insert_by_filter by apply sort_by_Sorted.
  by rewrite !filter_cons, IH.
Qed.
End sort_by_facts.

Lemma foldl_snoc_fmap {A B} (f : A → B) (l : list A) (acc : list B) :
  foldl (λ acc e, acc ++ [f e]) acc l = acc ++ (f <$> l).
Proof.
  revert acc. induction l as [|x l IH]; intros acc; simpl.
  - by rewrite app_nil_r.
  - rewrite IH. by rewrite <- app_assoc.
Qed.

Lemma ordered_edge_min_max offset (e : Z * Z) :
  ordered_edge offset e = (Z.min e.1 e.2, Z.max e.1 e.2 - offset).
Proof.
  destruct e as [a b]. unfold ordered_edge. simpl.
  case_decide; simpl; f_equal; lia.
Qed.

(** C3: [get_ordered_edges g offset] holds one pair per edge of [g], the
    pair of the edge [{a, b}] being [(min a b, max a b - offset)]; the list
    is in ascending order of the first coordinate, and pairs with the same
    first coordinate stay in the order of [g.edges()]. *)
Theorem get_ordered_edges_spec (g : Nx.Graph) (offset : Z) :
  let out := get_ordered_edges g offset in
  let img := (λ e : Z * Z, (Z.min e.1 e.2, Z.max e.1 e.2 - offset)) <$> Nx.edges g in
  out ≡ₚ img
  ∧ length out = length (Nx.edges g)
  ∧ StronglySorted (λ x y : Z * Z, x.1 ≤ y.1) out
  ∧ ∀ k, filter (λ x : Z * Z, x.1 = k) out = filter (λ x : Z * Z, x.1 = k) img.
Proof.
  intros out img.
  assert (Hout : out = sort_by fst img).
  { unfold out, get_ordered_edges, img. rewrite foldl_snoc_fmap. simpl.
    f_equal. apply list_fmap_ext. intros _ e _. apply ordered_edge_min_max. }
  split_and!.
  - rewrite Hout. apply sort_by_Permutation.
  - rewrite Hout, sort_by_Permutation. unfold img. by rewrite length_fmap.
  - rewrite Hout. apply Sorted_StronglySorted.
    + intros x y z. lia.
    + apply (sort_by_Sorted fst).
  - intros k. rewrite Hout. apply (sort_by_stable fst).
Qed.


(** ** The CNF codec *)

Lemma append_cons (x : ascii) (a b : string) :
  String x a +:+ b = String x (a +:+ b).
Proof. reflexivity. Qed.

Lemma append_assoc (a b c : string) : (a +:+ b) +:+ c = a +:+ (b +:+ c).
Proof.
  induction a as [|x a IH]; [done|]. rewrite !append_cons. by rewrite IH.
Qed.





Lemma concat_cons (x : string) (xs : list string) :
  String.concat "" (x :: xs) = x +:+ String.concat "" xs.
Proof.
  destruct xs as [|y xs]; simpl; [|done].
  induction x as [|c x IH]; [done|]. rewrite append_cons. by rewrite <- IH.
Qed.



(** The text of a clause whose neighbours pass the assertion: the literals
    in neighbour order, a blank after each. *)
Lemma clause_loop_text nv acc nbrs :
  Forall (λ lit, lit < nv ∨ lit < 2 * nv) nbrs →
  clause_loop nv acc nbrs
  = Ok (acc +:+ String.concat ""
                  ((λ lit, format_int (dimacs_literal nv lit) +:+ " ") <$> nbrs)).
Proof.
  intros Hall. revert acc.
  induction Hall as [|lit nbrs Hlit _ IH]; intros acc.
  - simpl. f_equal. induction acc as [|c acc IHacc]; [done|].
    rewrite append_cons. by rewrite <- IHacc.
  - rewrite fmap_cons, concat_cons. cbn [clause_loop]. unfold dimacs_literal.
    repeat case_decide; try lia; rewrite IH; by rewrite !append_assoc.
Qed.

Lemma lookup_adj_nodes (g : Nx.Graph) (n : Z) :
  n ∈ Nx.nodes g → is_Some (Nx.lookup_adj (Nx.adj g) n).
Proof.
  unfold Nx.nodes. induction (Nx.adj g) as [|[k nbrs] a IH]; simpl.
  - by intros ?%elem_of_nil.
  - intros [->|Hn]%elem_of_cons; case_decide; eauto; done.
Qed.


(** Only the clause nodes matter to the outer loop. *)
Lemma node_loop_filter g nv acc nodes :
  node_loop g nv acc nodes
  = node_loop g nv acc (filter (λ n, n >= nv * 2) nodes).
Proof.
  revert acc. induction nodes as [|node nodes IH]; intros acc; [done|].
  rewrite filter_cons. simpl. case_decide; simpl.
  - rewrite decide_True by done.
    destruct (Nx.neighbors g node) as [nbrs|e]; simpl; [|done].
    case_decide; [done|].
    destruct (clause_loop nv "" nbrs) as [c|e]; simpl; done.
  - done.
Qed.

(** C2: with [num_var = 2], a graph whose one clause node (index at least
    4) has the neighbours 0 and 3, listed in this order, is written as the
    comment line, the header [p cnf 2 1] and the clause line [1 -2 0]. *)
Theorem LCG_to_sat_scenario (graph : Nx.Graph) (c : Z) (save_name : string)
    (fs : gmap string string) :
  filter (λ n, n >= 4) (Nx.nodes graph) = [c] →
  Nx.neighbors graph c = Ok [0; 3] →
  ∃ text,
    LCG_to_sat graph save_name 2 fs = (Ok (), <[save_name := text]> fs)
    ∧ lines text = ["c generated by G2SAT lcg"; "p cnf 2 1"; "1 -2 0"]%string.
Proof.
  intros Hnodes Hnbrs. unfold LCG_to_sat.
  rewrite node_loop_filter. change (2 * 2) with 4. rewrite Hnodes.
  simpl. rewrite decide_True.
  - rewrite Hnbrs. simpl. eexists. split; [reflexivity|]. by vm_compute.
  - assert (c ∈ filter (λ n, n >= 4) (Nx.nodes graph)) as Hc
      by (rewrite Hnodes; set_solver).
    by apply list_elem_of_filter in Hc as [? _].
Qed.

Lemma LCG_to_sat_scenario_witness :
  ∃ text,
    LCG_to_sat (Nx.add_edges_from Nx.empty [(0, 4); (3, 4)]) "gen_0.cnf" 2 ∅
    = (Ok (), <["gen_0.cnf" := text]> ∅)
    ∧ lines text = ["c generated by G2SAT lcg"; "p cnf 2 1"; "1 -2 0"]%string.
Proof.
  apply (LCG_to_sat_scenario _ 4); reflexivity.
Defined.

(** C2 as the claim states it leaves the order of the neighbours open, and
    the clause line follows it: the graph of the edges (3, 4) and (0, 4) has
    the one clause node 4, with the neighbours 0 and 3 listed as 3, 0, and
    its clause line is [-2 1 0]. *)
Lemma LCG_to_sat_scenario_order :
  filter (λ n, n >= 4) (Nx.nodes (Nx.add_edges_from Nx.empty [(3, 4); (0, 4)]))
  = [4]
  ∧ Nx.neighbors (Nx.add_edges_from Nx.empty [(3, 4); (0, 4)]) 4 = Ok [3; 0]
  ∧ [3; 0] ≡ₚ [0; 3]
  ∧ ∃ text,
      LCG_to_sat (Nx.add_edges_from Nx.empty [(3, 4); (0, 4)]) "gen_0.cnf" 2 ∅
      = (Ok (), <["gen_0.cnf" := text]> ∅)
      ∧ lines text = ["c generated by G2SAT lcg"; "p cnf 2 1"; "-2 1 0"]%string.
Proof.
  split_and!; [reflexivity|reflexivity|apply Permutation_swap|].
  eexists. split; [reflexivity|]. by vm_compute.
Qed.

Lemma neighbors_lookup g n nbrs :
  Nx.neighbors g n = Ok nbrs ↔ Nx.lookup_adj (Nx.adj g) n = Some nbrs.
Proof.
  unfold Nx.neighbors. destruct (Nx.lookup_adj _ _); split; congruence.
Qed.



Lemma clause_loop_assert nv acc nbrs :
  match clause_loop nv acc nbrs with
  | Ok _ => Forall (λ lit, ¬ rejected_lit nv lit) nbrs
  | Raise e => e = AssertionError ∧ Exists (rejected_lit nv) nbrs
  end.
Proof.
  revert acc. induction nbrs as [|lit nbrs IH]; intros acc; simpl.
  - constructor.
  - repeat case_decide.
    + specialize (IH (acc +:+ format_int (lit + 1) +:+ " ")).
      destruct (clause_loop _ _ nbrs); [|by destruct IH; auto].
      constructor; [|done]. unfold rejected_lit. lia.
    + specialize (IH (acc +:+ format_int (- (lit - nv + 1)) +:+ " ")).
      destruct (clause_loop _ _ nbrs); [|by destruct IH; auto].
      constructor; [|done]. unfold rejected_lit. lia.
    + split; [done|]. left. unfold rejected_lit. lia.
Qed.

Lemma node_loop_assert g nv acc nodes :
  (∀ n, n ∈ nodes → is_Some (Nx.lookup_adj (Nx.adj g) n)) →
  match node_loop g nv acc nodes with
  | Ok _ => Forall (λ node, ¬ rejected_node g nv node) nodes
  | Raise e => e = AssertionError ∧ Exists (rejected_node g nv) nodes
  end.
Proof.
  revert acc. induction nodes as [|node nodes IH]; intros acc Hin; simpl.
  - constructor.
  - assert (Hrest : ∀ n, n ∈ nodes → is_Some (Nx.lookup_adj (Nx.adj g) n))
      by (intros n Hn; apply Hin; by right).
    assert (Hskip : ∀ acc', ¬ rejected_node g nv node →
      match node_loop g nv acc' nodes with
      | Ok _ => Forall (λ node, ¬ rejected_node g nv node) (node :: nodes)
      | Raise e => e = AssertionError ∧ Exists (rejected_node g nv) (node :: nodes)
      end).
    { intros acc' Hok. specialize (IH acc' Hrest).
      destruct (node_loop g nv acc' nodes); [by constructor|].
      destruct IH; auto. }
    case_decide as Hnode; [|apply Hskip; by intros [? _]].
    destruct (Hin node) as [nbrs Hl]; [by left|].
    apply neighbors_lookup in Hl as Hn. rewrite Hn. simpl.
    case_decide as Hlen.
    + apply Hskip. intros (_ & nbrs' & Hn' & Hex).
      rewrite Hn in Hn'. injection Hn' as <-. destruct nbrs; [|done].
      by apply Exists_nil in Hex.
    + pose proof (clause_loop_assert nv "" nbrs) as Hc.
      destruct (clause_loop nv "" nbrs) as [c|e]; simpl.
      * apply Hskip. intros (_ & nbrs' & Hn' & Hex).
        rewrite Hn in Hn'. injection Hn' as <-.
        apply Exists_exists in Hex as (lit & Hlit & Hbad).
        by eapply Forall_forall in Hc.
      * destruct Hc as [-> Hex]. split; [done|]. left. split; [done|]. eauto.
Qed.

(** C5 as the code has it: the encoding fails, with the assertion and before
    any file is opened, exactly when some clause node has a neighbour [lit]
    with [num_var ≤ lit] and [2 * num_var ≤ lit]; in every other case it
    writes the file.  No lower bound is checked. *)
Theorem LCG_to_sat_assertion (graph : Nx.Graph) (save_name : string)
    (num_var : Z) (fs : gmap string string) :
  let bad := ∃ node nbrs lit,
    node ∈ Nx.nodes graph ∧ node >= num_var * 2
    ∧ Nx.neighbors graph node = Ok nbrs ∧ lit ∈ nbrs
    ∧ num_var ≤ lit ∧ 2 * num_var ≤ lit in
  (bad → LCG_to_sat graph save_name num_var fs = (Raise AssertionError, fs))
  ∧ (¬ bad → ∃ text,
       LCG_to_sat graph save_name num_var fs
       = (Ok (), <[save_name := text]> fs)).
Proof.
  intros bad.
  assert (Hbad : bad ↔ Exists (rejected_node graph num_var) (Nx.nodes graph)).
  { unfold bad. rewrite Exists_exists. split.
    - intros (node & nbrs & lit & ? & ? & ? & ? & ?). exists node.
      split; [done|]. split; [done|]. exists nbrs. split; [done|].
      apply Exists_exists. by exists lit.
    - intros (node & ? & ? & nbrs & ? & (lit & ? & ? & ?)%Exists_exists).
      by exists node, nbrs, lit. }
  pose proof (node_loop_assert graph num_var [] (Nx.nodes graph)
                (lookup_adj_nodes graph)) as H.
  unfold LCG_to_sat.
  destruct (node_loop graph num_var [] (Nx.nodes graph)) as [clauses|e].
  - split; [|by eauto]. intros (node & Hnode & Hrej)%Hbad%Exists_exists.
    by eapply Forall_forall in H.
  - destruct H as [-> Hex]. split; [done|]. intros Hno. by apply Hbad in Hex.
Qed.

(** C5 as the claim states it fails below zero: with [num_var = 2] the
    neighbour [-1] of the clause node 4 is outside [0, 4), and yet the
    encoding succeeds and writes the clause line [0 0]. *)
Lemma LCG_to_sat_negative_index :
  4 >= 2 * 2
  ∧ Nx.neighbors (Nx.add_edges_from Nx.empty [(-1, 4)]) 4 = Ok [-1]
  ∧ ¬ (0 ≤ -1 < 2 * 2)
  ∧ ∃ text,
      LCG_to_sat (Nx.add_edges_from Nx.empty [(-1, 4)]) "gen_0.cnf" 2 ∅
      = (Ok (), <["gen_0.cnf" := text]> ∅)
      ∧ lines text = ["c generated by G2SAT lcg"; "p cnf 2 1"; "0 0"]%string.
Proof.
  split_and!; [lia|reflexivity|lia|].
  eexists. split; [reflexivity|]. by vm_compute.
Qed.

Lemma LCG_to_sat_assertion_witness :
  LCG_to_sat (Nx.add_edges_from Nx.empty [(5, 4)]) "gen_0.cnf" 2 ∅
  = (Raise AssertionError, ∅)
  ∧ ∃ text,
      LCG_to_sat (Nx.add_edges_from Nx.empty [(0, 4); (3, 4)]) "gen_0.cnf" 2 ∅
      = (Ok (), <["gen_0.cnf" := text]> ∅).
Proof.
  split.
  - apply (LCG_to_sat_assertion (Nx.add_edges_from Nx.empty [(5, 4)])).
    exists 4, [5], 5.
    change (4 ∈ [5; 4] ∧ 4 >= 2 * 2 ∧ Ok [5] = Ok [5] ∧ 5 ∈ [5] ∧ 2 ≤ 5 ∧ 2 * 2 ≤ 5).
    rewrite !elem_of_cons. split_and!; auto; lia.
  - apply (LCG_to_sat_assertion (Nx.add_edges_from Nx.empty [(0, 4); (3, 4)])).
    intros (node & nbrs & lit & Hnode & Hge & Hn & Hlit & Hlo & Hhi).
    change (node ∈ [0; 4; 3]) in Hnode.
    rewrite !elem_of_cons, elem_of_nil in Hnode.
    assert (node = 4) as -> by lia.
    change (Ok [0; 3] = Ok nbrs) in Hn. injection Hn as <-.
    rewrite !elem_of_cons, elem_of_nil in Hlit. lia.
Defined.

(** ** The graph store *)

Lemma read_loop_prefix {A} (acc pre : list A) (tail : list (record A)) :
  tail = [] ∨ (∃ e rest, tail = Damaged e :: rest) →
  read_loop acc ((Rec <$> pre) ++ tail) = acc ++ pre.
Proof.
  intros Htail. revert acc. induction pre as [|g pre IH]; intros acc; simpl.
  - rewrite app_nil_r. by destruct Htail as [->|(e & rest & ->)].
  - rewrite IH. by rewrite <- app_assoc.
Qed.

Lemma insert_all lib (graphs : list Nx.Graph) (stats : list (Z * Z)) :
  foldl (λ lib gs, let '(n, m) := gs.2 in InsertGraph lib gs.1 (n, m))
    lib (zip graphs stats)
  = lib ++ zip graphs stats.
Proof.
  revert lib. induction (zip graphs stats) as [|[g [n m]] l IH]; intros lib.
  - by rewrite app_nil_r.
  - simpl. rewrite IH. unfold InsertGraph. by rewrite <- app_assoc.
Qed.

(** C6: once the stats file has given its list, [load_graphs] fails on the
    assertion when the number of graphs read differs from the number of
    stats, with nothing registered; otherwise it returns the graphs and the
    stats, of equal length, after handing every graph, once and in order,
    to [TreeLib.InsertGraph] together with its own stats pair. *)
Theorem load_graphs_count (graph_pkl : list (record Nx.Graph))
    (stats_pkl : list (record (list (Z * Z)))) (stats : list (Z * Z))
    (rest : list (record (list (Z * Z)))) (lib : list (Nx.Graph * (Z * Z))) :
  cp_load stats_pkl = (Ok stats, rest) →
  let graphs := read_loop [] graph_pkl in
  (length graphs ≠ length stats →
     load_graphs graph_pkl stats_pkl lib = (Raise AssertionError, lib))
  ∧ (length graphs = length stats →
       load_graphs graph_pkl stats_pkl lib
       = (Ok (graphs, stats), lib ++ zip graphs stats)
       ∧ (zip graphs stats).*1 = graphs
       ∧ (zip graphs stats).*2 = stats).
Proof.
  intros Hstats graphs. unfold load_graphs. rewrite Hstats. fold graphs.
  split; intros Hlen.
  - by rewrite decide_False.
  - rewrite decide_True by done. rewrite insert_all.
    split_and!; [done| |].
    + apply fst_zip. lia.
    + apply snd_zip. lia.
Qed.

Lemma load_graphs_count_witness :
  load_graphs [Rec Nx.empty; Rec Nx.empty] [Rec [(2, 1)]] []
  = (Raise AssertionError, [])
  ∧ load_graphs [Rec Nx.empty] [Rec [(2, 1)]] []
    = (Ok ([Nx.empty], [(2, 1)]), [(Nx.empty, (2, 1))]).
Proof.
  split.
  - apply (load_graphs_count [Rec Nx.empty; Rec Nx.empty] [Rec [(2, 1)]]
             [(2, 1)] [] [] eq_refl).
    simpl. lia.
  - apply (load_graphs_count [Rec Nx.empty] [Rec [(2, 1)]]
             [(2, 1)] [] [] eq_refl).
    reflexivity.
Defined.

(** C10: whatever a record read raises, the loop takes it for the end of
    the stream.  A damaged record (or an interrupt) in the middle leaves
    exactly the graphs read before it, and [load_graphs] does on the damaged
    stream what it does on the stream cut there; when the stats file gives
    its list, the only exception that can come out is the assertion on the
    lengths. *)
Theorem load_graphs_swallows_read_errors (pre : list Nx.Graph) (e : exn)
    (rest : list (record Nx.Graph)) (stats : list (Z * Z))
    (stats_pkl srest : list (record (list (Z * Z))))
    (lib : list (Nx.Graph * (Z * Z))) :
  read_loop [] ((Rec <$> pre) ++ Damaged e :: rest) = pre
  ∧ read_loop [] (Rec <$> pre) = pre
  ∧ load_graphs ((Rec <$> pre) ++ Damaged e :: rest) stats_pkl lib
    = load_graphs (Rec <$> pre) stats_pkl lib
  ∧ ∀ e', (load_graphs ((Rec <$> pre) ++ Damaged e :: rest)
             (Rec stats :: srest) lib).1 = Raise e' → e' = AssertionError.
Proof.
  assert (H1 : read_loop [] ((Rec <$> pre) ++ Damaged e :: rest) = pre).
  { rewrite read_loop_prefix; [done|]. right. eauto. }
  assert (H2 : read_loop [] (Rec <$> pre) = pre).
  { rewrite <- (app_nil_r (Rec <$> pre)). rewrite read_loop_prefix; auto. }
  split_and!; [done|done| |].
  - unfold load_graphs. by rewrite H1, H2.
  - intros e'. unfold load_graphs. simpl. case_decide; simpl; congruence.
Qed.

(** ** The training loop *)

Lemma filter_none {A} (f : A → bool) (l : list A) :
  Forall (λ x, f x = false) l → filter (λ x, f x) l = [].
Proof.
  induction 1 as [|x l Hx _ IH]; [done|].
  rewrite filter_cons, IH. rewrite decide_False; [done|]. rewrite Hx. exact id.
Qed.

Lemma swap_Permutation (x : list nat) (i j : nat) : swap x i j ≡ₚ x.
Proof.
  unfold swap.
  destruct (x !! i) as [a|] eqn:Hi; [|done].
  destruct (x !! j) as [b|] eqn:Hj; [|done].
  by apply Permutation_insert_swap.
Qed.

Lemma shuffle_loop_Permutation (i : nat) (x tape : list nat) :
  (shuffle_loop i x tape).1 ≡ₚ x.
Proof.
  revert x tape. induction i as [|i IH]; intros x tape; simpl; [done|].
  destruct (randbelow (S (S i)) tape) as [j tape'].
  rewrite IH. apply swap_Permutation.
Qed.

Lemma shuffle_Permutation (x tape : list nat) : (shuffle x tape).1 ≡ₚ x.
Proof. apply shuffle_loop_Permutation. Qed.

(** [randbelow(n)] stays below [n]. *)
Lemma randbelow_lt (n : nat) (tape : list nat) :
  (0 < n)%nat → ((randbelow n tape).1 < n)%nat.
Proof.
  intros Hn. destruct tape as [|r tape]; simpl; [done|].
  apply Nat.mod_upper_bound. lia.
Qed.

Section training_facts.
Context (model_ll : list call → call → Q) (args : cmd_args).
Context (train_graphs : list Nx.Graph) (stats : list (Z * Z)).

Lemma total_nodes_in_range batch :
  (∀ i, i ∈ batch → (i < length train_graphs)%nat) →
  total_nodes train_graphs batch
  = Ok (foldr Z.add 0 (graph_len train_graphs <$> batch)).
Proof.
  induction batch as [|i batch IH]; intros Hin; simpl; [done|].
  destruct (lookup_lt_is_Some_2 train_graphs i) as [g Hg].
  { apply Hin. by left. }
  unfold getitem, graph_len at 1. rewrite Hg. simpl.
  rewrite IH; [done|]. intros j Hj. apply Hin. by right.
Qed.

Lemma col_ranges_in_range batch :
  (∀ i, i ∈ batch → (i < length stats)%nat) →
  col_ranges stats batch = Ok ((λ i, (0, (stat_of stats i).2)) <$> batch).
Proof.
  induction batch as [|i batch IH]; intros Hin; simpl; [done|].
  destruct (lookup_lt_is_Some_2 stats i) as [st Hst].
  { apply Hin. by left. }
  unfold getitem, stat_of at 1. rewrite Hst. simpl.
  rewrite IH; [done|]. intros j Hj. apply Hin. by right.
Qed.

(** The chunked loop on graphs that have nodes: one engine call per batch
    element, in order, each answer added to the running sum. *)
Lemma chunked_loop_calls batch ll w :
  (∀ i, i ∈ batch → (i < length train_graphs)%nat) →
  (∀ i, i ∈ batch → (i < length stats)%nat) →
  (∀ i, i ∈ batch → graph_len train_graphs i ≠ 0) →
  ∃ lls : list Q,
    chunked_loop model_ll args train_graphs stats ll batch w
    = (Ok (foldl Qplus ll lls),
       World (trace w ++ (chunk_call args train_graphs stats <$> batch))
         (indices w) (tape w))
    ∧ length lls = length batch
    ∧ ∀ k i, batch !! k = Some i →
        lls !! k
        = Some (model_ll
                  (trace w ++ (chunk_call args train_graphs stats <$> take k batch))
                  (chunk_call args train_graphs stats i)).
Proof.
  revert ll w. induction batch as [|i batch IH]; intros ll w Hg Hs Hne.
  - exists []. simpl. rewrite app_nil_r. by destruct w.
  - destruct (lookup_lt_is_Some_2 train_graphs i) as [g Hgi].
    { apply Hg. by left. }
    destruct (lookup_lt_is_Some_2 stats i) as [st Hsi].
    { apply Hs. by left. }
    assert (Hlen : Nx.len g ≠ 0).
    { specialize (Hne i ltac:(by left)). unfold graph_len in Hne.
      by rewrite Hgi in Hne. }
    assert (Hcall : sqrtn_forward_backward [i] [0] st.1 (blksize args)
                      (1 / inject_Z (Nx.len g))%Q [(0, st.2)]
                    = chunk_call args train_graphs stats i).
    { unfold chunk_call, stat_of, graph_len. by rewrite Hgi, Hsi. }
    set (c := chunk_call args train_graphs stats i) in *.
    set (w1 := World (trace w ++ [c]) (indices w) (tape w)).
    destruct (IH (ll + model_ll (trace w) c)%Q w1) as (lls & Hrun & Hlls & Hk).
    { intros j Hj. apply Hg. by right. }
    { intros j Hj. apply Hs. by right. }
    { intros j Hj. apply Hne. by right. }
    exists (model_ll (trace w) c :: lls). split_and!.
    + simpl. unfold bind, lift, getitem, float_div, ask.
      rewrite Hgi, Hsi. rewrite decide_False by done. rewrite Hcall.
      fold w1. rewrite Hrun. simpl. by rewrite <- app_assoc.
    + simpl. by rewrite Hlls.
    + intros [|k] j; simpl.
      * intros [= <-]. by rewrite app_nil_r.
      * intros Hj. rewrite (Hk k j Hj). simpl. by rewrite <- app_assoc.
Qed.

(** Whatever the graphs are, the chunked loop calls nothing but the engine,
    for the graphs of the batch in order, up to where it stops. *)
Lemma chunked_loop_prefix batch ll w :
  (∀ i, i ∈ batch → (i < length train_graphs)%nat) →
  (∀ i, i ∈ batch → (i < length stats)%nat) →
  ∃ k, trace (chunked_loop model_ll args train_graphs stats ll batch w).2
       = trace w ++ (chunk_call args train_graphs stats <$> take k batch).
Proof.
  revert ll w. induction batch as [|i batch IH]; intros ll w Hg Hs.
  - exists 0%nat. simpl. by rewrite app_nil_r.
  - destruct (lookup_lt_is_Some_2 train_graphs i) as [g Hgi].
    { apply Hg. by left. }
    destruct (lookup_lt_is_Some_2 stats i) as [st Hsi].
    { apply Hs. by left. }
    simpl. unfold bind, lift, getitem, float_div, ask. rewrite Hgi, Hsi.
    case_decide as Hlen.
    { exists 0%nat. simpl. by rewrite app_nil_r. }
    assert (Hcall : sqrtn_forward_backward [i] [0] st.1 (blksize args)
                      (1 / inject_Z (Nx.len g))%Q [(0, st.2)]
                    = chunk_call args train_graphs stats i).
    { unfold chunk_call, stat_of, graph_len. by rewrite Hgi, Hsi. }
    rewrite Hcall.
    match goal with |- context [chunked_loop _ _ _ _ ?ll' batch ?w'] =>
      destruct (IH ll' w') as [k Hk] end.
    { intros j Hj. apply Hg. by right. }
    { intros j Hj. apply Hs. by right. }
    exists (S k). rewrite Hk. simpl. by rewrite <- app_assoc.
Qed.

(** C1: the whole-batch primitive, with [loss = -ll / num_nodes] and one
    backward, is used exactly when the block size is negative or the node
    count of the batch does not exceed it.  Otherwise the only calls are
    calls of the chunked engine, for the graphs of the batch in order; on
    graphs that have nodes there is one per graph of the batch, with
    [loss_scale = 1 / len(graph)], and the loss is the negated sum of the
    returned log-likelihoods divided by the node count. *)
Theorem train_batch_branch (batch : list nat) (w : world) :
  length stats = length train_graphs →
  (∀ i, i ∈ batch → (i < length train_graphs)%nat) →
  let num_nodes := foldr Z.add 0 (graph_len train_graphs <$> batch) in
  if decide (blksize args < 0 ∨ num_nodes ≤ blksize args)
  then
    let ll := model_ll (trace w) (whole_call stats batch) in
    let loss := tensor_div (- ll) num_nodes in
    train_batch model_ll args train_graphs stats batch w
    = (Ok loss,
       World (trace w ++ [whole_call stats batch; backward loss])
         (indices w) (tape w))
  else
    (∃ k, trace (train_batch model_ll args train_graphs stats batch w).2
          = trace w ++ (chunk_call args train_graphs stats <$> take k batch))
    ∧ ((∀ i, i ∈ batch → graph_len train_graphs i ≠ 0) →
       ∃ lls : list Q,
         train_batch model_ll args train_graphs stats batch w
         = (Ok (finite (- foldl Qplus 0%Q lls / inject_Z num_nodes)),
            World (trace w ++ (chunk_call args train_graphs stats <$> batch))
              (indices w) (tape w))
         ∧ length lls = length batch
         ∧ ∀ k i, batch !! k = Some i →
             lls !! k
             = Some (model_ll
                       (trace w ++ (chunk_call args train_graphs stats <$> take k batch))
                       (chunk_call args train_graphs stats i))).
Proof.
  intros Hlen Hin num_nodes.
  assert (Hin' : ∀ i, i ∈ batch → (i < length stats)%nat)
    by (rewrite Hlen; exact Hin).
  unfold train_batch, bind, lift.
  rewrite (total_nodes_in_range batch Hin). fold num_nodes.
  case_decide as Hcond.
  - rewrite (col_ranges_in_range batch Hin'). unfold ask, emit, ret. simpl.
    unfold whole_call. by rewrite <- app_assoc.
  - split.
    + destruct (chunked_loop_prefix batch 0%Q w Hin Hin') as [k Hk].
      exists k. rewrite <- Hk.
      destruct (chunked_loop _ _ _ _ _ batch w) as [[ll|e] w1]; [|done].
      by destruct (float_div (- ll) num_nodes).
    + intros Hne.
      destruct (chunked_loop_calls batch 0%Q w Hin Hin' Hne)
        as (lls & -> & ? & ?).
      exists lls. split_and!; [|done|done].
      unfold float_div. rewrite decide_False by lia. done.
Qed.

(** A failed lookup or division stops the loop where it is: no call is
    added. *)
Ltac no_new_calls := exists []; by rewrite app_nil_r.

Lemma chunked_loop_trace batch ll w :
  let '(_, w') := chunked_loop model_ll args train_graphs stats ll batch w in
  ∃ new,
    trace w' = trace w ++ new
    ∧ Forall (λ c, is_optimizer_call c = false) new
    ∧ indices w' = indices w ∧ tape w' = tape w.
Proof.
  revert ll w. induction batch as [|i batch IH]; intros ll w; simpl.
  - exists []. by rewrite app_nil_r.
  - unfold bind, lift, ask.
    destruct (getitem train_graphs i) as [g|e];
      [|no_new_calls].
    destruct (getitem stats i) as [st|e];
      [|no_new_calls].
    destruct (float_div 1 (Nx.len g)) as [q|e];
      [|no_new_calls].
    match goal with |- context [chunked_loop _ _ _ _ ?ll' batch ?w'] =>
      specialize (IH ll' w'); destruct (chunked_loop _ _ _ _ ll' batch w')
        as [r w2] end.
    destruct IH as (new & -> & Hnew & -> & ->). simpl.
    eexists (_ :: new). rewrite <- app_assoc. split_and!; try done.
    by constructor.
Qed.

(** [train_batch] calls the model only: nothing of what it does reaches
    the optimizer, the index pool or the random numbers. *)
Lemma train_batch_trace batch w :
  let '(_, w') := train_batch model_ll args train_graphs stats batch w in
  ∃ new,
    trace w' = trace w ++ new
    ∧ Forall (λ c, is_optimizer_call c = false) new
    ∧ indices w' = indices w ∧ tape w' = tape w.
Proof.
  unfold train_batch, bind, lift.
  destruct (total_nodes train_graphs batch) as [num_nodes|e];
    [|no_new_calls].
  case_decide.
  - destruct (col_ranges stats batch) as [cols|e];
      [|no_new_calls].
    unfold ask, emit, ret. simpl. eexists [_; _].
    rewrite <- app_assoc. split_and!; try done. by repeat constructor.
  - pose proof (chunked_loop_trace batch 0%Q w) as Hc.
    destruct (chunked_loop _ _ _ _ _ batch w) as [[ll|e] w2]; [|done].
    destruct (float_div (- ll) num_nodes); done.
Qed.

(** Lines 169 to 173, case by case. *)
Lemma maybe_step_cases idx w :
  maybe_step args idx w
  = if decide (accum_grad args = 0) then (Raise ZeroDivisionError, w)
    else if decide (accum_grad args | idx + 1)
    then (Ok (),
          World (trace w
                   ++ (if Qlt_le_dec 0 (grad_clip args)
                       then [clip_grad_norm_ (grad_clip args)] else [])
                   ++ [optimizer_step; zero_grad])
            (indices w) (tape w))
    else (Ok (), w).
Proof.
  unfold maybe_step, bind, lift, py_mod.
  case_decide as Hz; [done|].
  case_decide as Hd.
  - rewrite decide_True by (by apply Z.mod_divide).
    unfold emit, ret. destruct (Qlt_le_dec 0 (grad_clip args)); simpl.
    + by rewrite <- !app_assoc.
    + by rewrite <- !app_assoc.
  - rewrite decide_False; [done|]. intros Hm. by apply Hd, Z.mod_divide.
Qed.

Lemma pending_app t new :
  Forall (λ c, c ≠ zero_grad) new →
  pending (t ++ new) = pending t ++ filter (λ c, adds_gradient c) new.
Proof.
  unfold pending. rewrite foldl_app. generalize (foldl
    (λ acc c, match c with
              | zero_grad => []
              | _ => if adds_gradient c then acc ++ [c] else acc
              end) [] t).
  induction new as [|c new IH]; intros acc Hnz; simpl.
  - by rewrite app_nil_r.
  - apply Forall_cons in Hnz as [Hc Hnz].
    rewrite filter_cons.
    destruct c; try done; simpl; rewrite IH by done;
      by rewrite <- ?app_assoc.
Qed.



(** Whatever a step does, the index pool stays a reshuffle of what it
    was. *)
Lemma train_step_pool epoch idx w :
  indices (train_step model_ll args train_graphs stats epoch idx w).2
  ≡ₚ indices w.
Proof.
  unfold train_step, bind at 1, draw_batch.
  pose proof (shuffle_Permutation (indices w) (tape w)) as Hp.
  destruct (shuffle (indices w) (tape w)) as [x tape']. simpl in Hp.
  set (w0 := World (trace w) x tape'). unfold bind at 1.
  pose proof (train_batch_trace (slice_to x (batch_size args)) w0) as Hb.
  destruct (train_batch _ _ _ _ _ w0) as [[loss|e] w1];
    destruct Hb as (new & _ & _ & Hi & _); simpl in Hi; [|simpl; by rewrite Hi].
  unfold bind. rewrite maybe_step_cases.
  repeat case_decide; unfold emit; simpl; by rewrite Hi.
Qed.

(** With indices in range and graphs that have nodes the batch gets its
    loss. *)
Lemma train_batch_returns batch w :
  length stats = length train_graphs →
  (∀ i, i ∈ batch → (i < length train_graphs)%nat) →
  (∀ i, i ∈ batch → graph_len train_graphs i ≠ 0) →
  ∃ loss new,
    train_batch model_ll args train_graphs stats batch w
    = (Ok loss, World (trace w ++ new) (indices w) (tape w)).
Proof.
  intros Hlen Hin Hne.
  assert (Hin' : ∀ i, i ∈ batch → (i < length stats)%nat)
    by (rewrite Hlen; exact Hin).
  unfold train_batch, bind, lift.
  rewrite (total_nodes_in_range batch Hin).
  case_decide as Hcond.
  - rewrite (col_ranges_in_range batch Hin'). unfold ask, emit, ret. simpl.
    eexists _, [_; _]. by rewrite <- app_assoc.
  - destruct (chunked_loop_calls batch 0%Q w Hin Hin' Hne) as (lls & -> & _).
    unfold float_div. rewrite decide_False by lia. by eexists _, _.
Qed.

(** A graph without nodes in the chunked branch: [1.0 / n] raises before
    the engine is called for it. *)
Lemma chunked_loop_empty_graph i rest ll w g :
  train_graphs !! i = Some g → Nx.len g = 0 → (i < length stats)%nat →
  chunked_loop model_ll args train_graphs stats ll (i :: rest) w
  = (Raise ZeroDivisionError, w).
Proof.
  intros Hg Hlen Hi. destruct (lookup_lt_is_Some_2 stats i Hi) as [st Hst].
  simpl. unfold bind, lift, getitem, float_div.
  by rewrite Hg, Hst, Hlen.
Qed.

(** On well-formed data a step of the loop goes through, and leaves the
    index pool a reshuffle of what it was. *)
Lemma train_step_returns epoch idx w :
  length stats = length train_graphs →
  Forall (λ g, Nx.len g ≠ 0) train_graphs →
  accum_grad args ≠ 0 →
  indices w ≡ₚ seq 0 (length train_graphs) →
  ∃ w', train_step model_ll args train_graphs stats epoch idx w = (Ok (), w')
        ∧ indices w' ≡ₚ seq 0 (length train_graphs).
Proof.
  intros Hlen Hne Hacc Hinv.
  unfold train_step, bind at 1, draw_batch.
  pose proof (shuffle_Permutation (indices w) (tape w)) as Hp.
  destruct (shuffle (indices w) (tape w)) as [x tape']. simpl in Hp.
  set (batch := slice_to x (batch_size args)).
  set (w0 := World (trace w) x tape').
  assert (Hsub : ∀ i, i ∈ batch → (i < length train_graphs)%nat).
  { intros i Hi.
    assert (i ∈ x) as Hix.
    { unfold batch, slice_to in Hi. case_decide;
        (eapply elem_of_sublist; [exact Hi|apply sublist_take]). }
    rewrite Hp, Hinv in Hix. apply elem_of_seq in Hix. lia. }
  assert (Hlens : ∀ i, i ∈ batch → graph_len train_graphs i ≠ 0).
  { intros i Hi. destruct (lookup_lt_is_Some_2 train_graphs i (Hsub i Hi))
      as [g Hg].
    unfold graph_len. rewrite Hg. simpl.
    eapply Forall_forall in Hne; [done|]. by eapply list_elem_of_lookup_2. }
  unfold bind at 1.
  destruct (train_batch_returns batch w0 Hlen Hsub Hlens)
    as (loss & new & ->).
  unfold bind. rewrite maybe_step_cases. rewrite decide_False by done.
  case_decide; unfold emit; simpl; eexists; (split; [reflexivity|]); simpl;
    by rewrite Hp.
Qed.

Lemma for_each_returns {A} (P : world → Prop) (body : A → M unit)
    (l : list A) (w : world) :
  (∀ x w, P w → ∃ w', body x w = (Ok (), w') ∧ P w') →
  P w → ∃ w', for_each l body w = (Ok (), w') ∧ P w'.
Proof.
  intros Hbody. revert w. induction l as [|x l IH]; intros w HP; simpl.
  - by exists w.
  - unfold bind. destruct (Hbody x w HP) as (w1 & -> & HP1). by apply IH.
Qed.

(** The run as a whole: on well-formed data and with a divisor that is not
    zero every epoch is run to its checkpoint. *)
Lemma train_returns (tape0 : list nat) :
  length stats = length train_graphs →
  Forall (λ g, Nx.len g ≠ 0) train_graphs →
  accum_grad args ≠ 0 →
  ∃ w', train model_ll args train_graphs stats (start train_graphs tape0)
        = (Ok (), w').
Proof.
  intros Hlen Hne Hacc.
  destruct (for_each_returns
              (λ w, indices w ≡ₚ seq 0 (length train_graphs))
              (train_epoch model_ll args train_graphs stats)
              (range (num_epochs args)) (start train_graphs tape0))
    as (w' & Hrun & _); [|done|by exists w'].
  intros epoch w Hinv. unfold train_epoch, bind at 1, emit at 1.
  unfold bind at 1.
  destruct (for_each_returns
              (λ w, indices w ≡ₚ seq 0 (length train_graphs))
              (train_step model_ll args train_graphs stats epoch)
              (range (epoch_save args))
              (World (trace w ++ [zero_grad]) (indices w) (tape w)))
    as (w1 & -> & Hinv1); [|done|].
  - intros idx w1 Hinv1. by apply train_step_returns.
  - unfold emit. simpl. by eexists.
Qed.
End training_facts.

Lemma train_batch_branch_witness :
  ∃ lls : list Q,
    train_batch (λ _ _, 1%Q) demo_args [demo_graph; demo_graph]
      [(4, 1); (4, 1)] [0; 1]%nat (World [] [0; 1]%nat [])
    = (Ok (finite (- foldl Qplus 0%Q lls / inject_Z 10)),
       World (chunk_call demo_args [demo_graph; demo_graph] [(4, 1); (4, 1)]
                <$> [0; 1]%nat) [0; 1]%nat [])
    ∧ length lls = 2%nat.
Proof.
  assert (Hin : ∀ i : nat, i ∈ [0; 1]%nat
                → (i < length [demo_graph; demo_graph])%nat).
  { intros i. rewrite !elem_of_cons, elem_of_nil. simpl. lia. }
  assert (Hne : ∀ i : nat, i ∈ [0; 1]%nat
                → graph_len [demo_graph; demo_graph] i ≠ 0).
  { intros i. rewrite !elem_of_cons, elem_of_nil.
    intros [->|[->|[]]]; by vm_compute. }
  destruct (train_batch_branch (λ _ _, 1%Q) demo_args
              [demo_graph; demo_graph] [(4, 1); (4, 1)] [0; 1]%nat
              (World [] [0; 1]%nat []) eq_refl Hin)
    as [_ Hfull].
  destruct (Hfull Hne) as (lls & Hrun & Hlen & _).
  exists lls. split; [exact Hrun|exact Hlen].
Defined.

(** ** Batches *)



(** ** Evaluation *)

Lemma elem_of_edges_from seen a u v :
  (u, v) ∈ Nx.edges_from seen a →
  ∃ i nbrs,
    a !! i = Some (u, nbrs) ∧ v ∈ nbrs ∧ (v ∉ seen)
    ∧ ∀ j kn, (j < i)%nat → a !! j = Some kn → fst kn ≠ v.
Proof.
  revert seen. induction a as [|[n nbrs] a IH]; intros seen; simpl.
  - by intros ?%elem_of_nil.
  - rewrite elem_of_app. intros [H|H].
    + apply list_elem_of_fmap in H as (nbr & [= -> ->] & Hin).
      apply list_elem_of_filter in Hin as [Hns Hin].
      exists 0%nat, nbrs. split_and!; try done. intros j kn Hj. lia.
    + apply IH in H as (i & nbrs' & Hi & Hv & Hseen & Hbefore).
      exists (S i), nbrs'. split_and!; [done|done|set_solver|].
      intros [|j] kn Hj; simpl.
      * intros [= <-]. simpl. set_solver.
      * intros Hkn. apply (Hbefore j kn); [lia|done].
Qed.

Lemma NoDup_edges_from seen a :
  NoDup a.*1 → Forall (λ kn : Z * list Z, NoDup kn.2) a →
  NoDup (Nx.edges_from seen a).
Proof.
  revert seen. induction a as [|[n nbrs] a IH]; intros seen; simpl.
  - constructor.
  - intros [Hn Ha]%NoDup_cons [Hnbrs Hall]%Forall_cons. simpl in Hnbrs.
    apply NoDup_app. split_and!.
    + apply NoDup_fmap_2_strong; [|by apply NoDup_filter].
      by intros x y _ _ [= ->].
    + intros [u v] (nbr & [= -> ->] & _)%list_elem_of_fmap Hin.
      apply elem_of_edges_from in Hin as (i & nbrs' & Hi & _).
      apply Hn. apply list_elem_of_fmap. exists (n, nbrs'). split; [done|].
      by eapply list_elem_of_lookup_2.
    + by apply IH.
Qed.

(** No edge is reported in both directions. *)
Lemma edges_one_direction g u v :
  (u, v) ∈ Nx.edges g → (v, u) ∈ Nx.edges g → u = v.
Proof.
  intros (i & n1 & Hi & _ & _ & Hbi)%elem_of_edges_from
         (j & n2 & Hj & _ & _ & Hbj)%elem_of_edges_from.
  destruct (decide (i = j)) as [->|Hij].
  - rewrite Hi in Hj. by injection Hj.
  - destruct (decide (i < j)%nat) as [Hlt|Hge].
    + by destruct (Hbj i _ Hlt Hi).
    + assert (Hlt : (j < i)%nat) by lia. by destruct (Hbi j _ Hlt Hj).
Qed.

Lemma edges_from_complete seen a i u v nbrs :
  a !! i = Some (u, nbrs) → v ∈ nbrs → v ∉ seen →
  (∀ j kn, (j < i)%nat → a !! j = Some kn → fst kn ≠ v) →
  (u, v) ∈ Nx.edges_from seen a.
Proof.
  revert seen i. induction a as [|[n nb] a IH]; intros seen i; [done|].
  simpl. rewrite elem_of_app. destruct i as [|i]; simpl.
  - intros [= -> ->] Hv Hseen _. left.
    apply list_elem_of_fmap. exists v. split; [done|].
    by apply list_elem_of_filter.
  - intros Hi Hv Hseen Hbefore. right. apply (IH _ i); try done.
    + apply not_elem_of_cons. split; [|done].
      intros ->. apply (Hbefore 0%nat (n, nb)); [lia|done|done].
    + intros j kn Hj Hkn. apply (Hbefore (S j) kn); [lia|done].
Qed.

Lemma lookup_adj_first a u nbrs :
  Nx.lookup_adj a u = Some nbrs →
  ∃ i, a !! i = Some (u, nbrs)
       ∧ ∀ j kn, (j < i)%nat → a !! j = Some kn → fst kn ≠ u.
Proof.
  induction a as [|[n nb] a IH]; simpl; [done|].
  case_decide as Hn.
  - intros [= ->]. subst n. exists 0%nat. split; [done|]. intros j kn Hj. lia.
  - intros (i & Hi & Hbefore)%IH. exists (S i). split; [done|].
    intros [|j] kn Hj; simpl.
    + by intros [= <-].
    + intros Hkn. apply (Hbefore j kn); [lia|done].
Qed.

(** [graph.edges()] misses no edge of an undirected graph: each one is
    reported from the endpoint that comes first among the nodes. *)
Lemma edges_cover g u v nbrs :
  Nx.symmetric g →
  Nx.lookup_adj (Nx.adj g) u = Some nbrs → v ∈ nbrs →
  (u, v) ∈ Nx.edges g ∨ (v, u) ∈ Nx.edges g.
Proof.
  intros Hsym Hu Hv.
  destruct (Hsym u v nbrs Hu Hv) as (nbrs' & Hv' & Hu').
  apply lookup_adj_first in Hu as (i & Hi & Hbi).
  apply lookup_adj_first in Hv' as (j & Hj & Hbj).
  destruct (decide (i ≤ j)%nat) as [Hij|Hij].
  - left. apply (edges_from_complete [] _ i u v nbrs); try done.
    + by intros ?%elem_of_nil.
    + intros k kn Hk. apply Hbj. lia.
  - right. apply (edges_from_complete [] _ j v u nbrs'); try done.
    + by intros ?%elem_of_nil.
    + intros k kn Hk. apply Hbi. lia.
Qed.

Lemma NoDup_get_ordered_edges g offset :
  Nx.wf g → NoDup (get_ordered_edges g offset).
Proof.
  intros [Hnodes Hnbrs]. unfold get_ordered_edges.
  rewrite foldl_snoc_fmap. simpl. rewrite sort_by_Permutation.
  apply NoDup_fmap_2_strong; [|by apply NoDup_edges_from].
  intros [u1 v1] [u2 v2] H1 H2. rewrite !ordered_edge_min_max. simpl.
  intros [= Hmin Hmax].
  assert (u1 = u2 ∧ v1 = v2 ∨ u1 = v2 ∧ v1 = u2) as [[-> ->]|[-> ->]] by lia;
    [done|].
  by rewrite (edges_one_direction g _ _ H1 H2).
Qed.

Lemma length_get_ordered_edges g offset :
  length (get_ordered_edges g offset) = length (Nx.edges g).
Proof.
  unfold get_ordered_edges. rewrite foldl_snoc_fmap. simpl.
  by rewrite sort_by_Permutation, length_fmap.
Qed.

Lemma Q_self_ratio (n : nat) :
  n ≠ 0%nat → (inject_Z (Z.of_nat n) / inject_Z (Z.of_nat n) == 1)%Q.
Proof.
  intros Hn. apply Qmult_inv_r. unfold Qeq. simpl. lia.
Qed.

(** An empty prediction or an edgeless graph stops the report: the division
    of line 129 raises. *)
Lemma eval_report_zero_division generated g stat :
  generated = [] ∨ Nx.edges g = [] →
  eval_report generated g stat = Raise ZeroDivisionError.
Proof.
  unfold eval_report, len_div. rewrite length_fmap, length_get_ordered_edges.
  intros [->| ->]; simpl; [done|].
  by destruct (decide (length generated = 0%nat)).
Qed.

(** C8 as the code has it: when the model generated an edge and the graph
    has one, the report holds [|common| / len(pred_edges)] as precision and
    [|common| / len(true_edges)] as recall, [pred_edges] being the generated
    edges with the second index shifted up by [stat[0]], [true_edges] being
    [get_ordered_edges(g, 0)] and [common] their intersection as sets.  When
    moreover no edge was generated twice and the two edge sets are the same,
    both are 1. *)
Theorem eval_report_precision_recall (generated : list (Z * Z))
    (g : Nx.Graph) (stat : Z * Z) :
  let pred_edges := (λ e : Z * Z, (e.1, e.2 + stat.1)) <$> generated in
  let true_edges := get_ordered_edges g 0 in
  let common : gset (Z * Z) := list_to_set pred_edges ∩ list_to_set true_edges in
  generated ≠ [] → Nx.edges g ≠ [] →
  ∃ rep,
    eval_report generated g stat = Ok rep
    ∧ n_pred rep = length pred_edges
    ∧ n_true rep = length true_edges
    ∧ precision rep
      = (inject_Z (Z.of_nat (size common))
         / inject_Z (Z.of_nat (length pred_edges)))%Q
    ∧ recall rep
      = (inject_Z (Z.of_nat (size common))
         / inject_Z (Z.of_nat (length true_edges)))%Q
    ∧ (Nx.wf g → NoDup generated →
       list_to_set pred_edges =@{gset (Z * Z)} list_to_set true_edges →
       (precision rep == 1)%Q ∧ (recall rep == 1)%Q).
Proof.
  intros pred_edges true_edges common Hgen Hedges.
  assert (Hp : length pred_edges ≠ 0%nat).
  { unfold pred_edges. rewrite length_fmap. by destruct generated. }
  assert (Ht : length true_edges ≠ 0%nat).
  { unfold true_edges. rewrite length_get_ordered_edges.
    by destruct (Nx.edges g). }
  unfold eval_report, len_div. fold pred_edges true_edges common.
  rewrite !decide_False by done. simpl.
  eexists. split; [reflexivity|]. simpl. split_and!; try done.
  intros Hwf Hnd Hsame.
  assert (Hc : common = list_to_set true_edges).
  { unfold common. rewrite Hsame. apply (idemp_L (∩)). }
  assert (Hst : size common = length true_edges).
  { rewrite Hc. apply size_list_to_set.
    by apply NoDup_get_ordered_edges. }
  assert (Hsp : size common = length pred_edges).
  { rewrite Hc, <- Hsame. apply size_list_to_set.
    apply NoDup_fmap_2_strong; [|done].
    intros [a b] [c d] _ _ [= -> ?]. f_equal. lia. }
  split.
  - rewrite Hsp. by apply Q_self_ratio.
  - rewrite Hst. by apply Q_self_ratio.
Qed.

Lemma eval_report_precision_recall_witness :
  ∃ rep,
    eval_report [(0, 0); (3, 0)] demo_graph (4, 1) = Ok rep
    ∧ n_pred rep = 2%nat ∧ n_true rep = 2%nat
    ∧ (precision rep == 1)%Q ∧ (recall rep == 1)%Q.
Proof.
  destruct (eval_report_precision_recall [(0, 0); (3, 0)] demo_graph (4, 1))
    as (rep & Hrep & Hp & Ht & _ & _ & Hone); [done|done|].
  destruct Hone as [H1 H2].
  - apply (bool_decide_unpack _). by vm_compute.
  - apply (bool_decide_unpack _). by vm_compute.
  - apply (bool_decide_unpack _). by vm_compute.
  - by exists rep.
Defined.

(** C8 as the claim states it fails on a graph without edges: when nothing
    is generated the predicted edge set is the ground-truth edge set, and
    the report raises instead of giving 1.0 twice; it raises as well when an
    edge is generated. *)
Lemma eval_report_no_edges :
  list_to_set ((λ e : Z * Z, (e.1, e.2 + 4)) <$> [])
    =@{gset (Z * Z)} list_to_set (get_ordered_edges bare_graph 0)
  ∧ eval_report [] bare_graph (4, 1) = Raise ZeroDivisionError
  ∧ eval_report [(0, 0)] bare_graph (4, 1) = Raise ZeroDivisionError.
Proof. split_and!; [compute_done|reflexivity|reflexivity]. Qed.

(** * Further properties *)

(** ** The sizes of the data set *)

Lemma max_sides_acc (stats : list (Z * Z)) (acc : Z * Z) :
  let r := foldl (λ acc nm : Z * Z, (Z.max acc.1 nm.1, Z.max acc.2 nm.2))
             acc stats in
  acc.1 ≤ r.1 ∧ acc.2 ≤ r.2
  ∧ (∀ nm, nm ∈ stats → nm.1 ≤ r.1 ∧ nm.2 ≤ r.2)
  ∧ (r.1 = acc.1 ∨ ∃ nm, nm ∈ stats ∧ r.1 = nm.1)
  ∧ (r.2 = acc.2 ∨ ∃ nm, nm ∈ stats ∧ r.2 = nm.2).
Proof.
  revert acc. induction stats as [|nm stats IH]; intros acc; simpl.
  - split_and!; auto; try lia. by intros ? ?%elem_of_nil.
  - destruct (IH (Z.max acc.1 nm.1, Z.max acc.2 nm.2))
      as (H1 & H2 & Hall & Hl & Hr). simpl in *.
    split_and!; try lia.
    + intros nm' [->|Hin]%elem_of_cons; [lia|].
      destruct (Hall nm' Hin). lia.
    + destruct Hl as [Hl|(nm' & Hin & Hl)].
      * destruct (Z.max_spec acc.1 nm.1) as [[_ Hm]|[_ Hm]].
        -- right. exists nm. split; [by left|]. lia.
        -- left. lia.
      * right. exists nm'. split; [by right|done].
    + destruct Hr as [Hr|(nm' & Hin & Hr)].
      * destruct (Z.max_spec acc.2 nm.2) as [[_ Hm]|[_ Hm]].
        -- right. exists nm. split; [by left|]. lia.
        -- left. lia.
      * right. exists nm'. split; [by right|done].
Qed.

(** X1: [max_num_nodes] is never negative, no left or right size of the
    stats exceeds it, and it is 0 (as on an empty list, or when no size is
    positive) or one of the sizes. *)
Theorem max_num_nodes_bound (stats : list (Z * Z)) :
  0 ≤ max_num_nodes stats
  ∧ (∀ n m, (n, m) ∈ stats → n ≤ max_num_nodes stats ∧ m ≤ max_num_nodes stats)
  ∧ (max_num_nodes stats = 0
     ∨ ∃ n m, (n, m) ∈ stats
              ∧ (max_num_nodes stats = n ∨ max_num_nodes stats = m)).
Proof.
  unfold max_num_nodes, max_sides.
  destruct (max_sides_acc stats (0, 0)) as (H1 & H2 & Hall & Hl & Hr).
  simpl in *.
  set (r := foldl (λ acc nm : Z * Z, (Z.max acc.1 nm.1, Z.max acc.2 nm.2))
              (0, 0) stats) in *.
  split_and!.
  - lia.
  - intros n m Hin. destruct (Hall _ Hin). simpl in *. lia.
  - destruct (Z.max_spec r.1 r.2) as [[_ ->]|[_ ->]].
    + destruct Hr as [->|([n m] & Hin & ->)]; [by left|].
      right. exists n, m. auto.
    + destruct Hl as [->|([n m] & Hin & ->)]; [by left|].
      right. exists n, m. auto.
Qed.

(** ** More on get_ordered_edges *)

Lemma insert_by_fmap {A} (key : A → Z) (f : A → A) (x : A) (l : list A) :
  (∀ y, key (f y) = key y) →
  insert_by key (f x) (f <$> l) = f <$> insert_by key x l.
Proof.
  intros Hkey. induction l as [|y l IH]; [done|].
  rewrite fmap_cons. cbn [insert_by]. rewrite !Hkey.
  case_decide; rewrite ?fmap_cons; [done|]. by rewrite IH.
Qed.

Lemma sort_by_fmap {A} (key : A → Z) (f : A → A) (l : list A) :
  (∀ y, key (f y) = key y) →
  sort_by key (f <$> l) = f <$> sort_by key l.
Proof.
  intros Hkey. induction l as [|x l IH]; [done|].
  rewrite fmap_cons. unfold sort_by in *. cbn [foldr]. rewrite IH.
  by apply insert_by_fmap.
Qed.

(** X2: the offset only shifts the second coordinate: the list for [offset]
    is the list for 0 with [offset] taken off every second coordinate, in the
    same order, so that adding the offset back (as line 126 does with
    [stat[0]]) gives the list for 0 again. *)
Theorem get_ordered_edges_offset (g : Nx.Graph) (offset : Z) :
  get_ordered_edges g offset
  = (λ e : Z * Z, (e.1, e.2 - offset)) <$> get_ordered_edges g 0
  ∧ (λ e : Z * Z, (e.1, e.2 + offset)) <$> get_ordered_edges g offset
    = get_ordered_edges g 0.
Proof.
  assert (H : get_ordered_edges g offset
              = (λ e : Z * Z, (e.1, e.2 - offset)) <$> get_ordered_edges g 0).
  { unfold get_ordered_edges. rewrite !foldl_snoc_fmap. simpl.
    rewrite <- sort_by_fmap by done. f_equal.
    rewrite <- list_fmap_compose. apply list_fmap_ext.
    intros _ [a b] _. unfold ordered_edge. simpl.
    case_decide; simpl; f_equal; lia. }
  split; [done|]. rewrite H, <- list_fmap_compose.
  rewrite <- (list_fmap_id (get_ordered_edges g 0)) at 2.
  apply list_fmap_ext. intros _ [a b] _. simpl. f_equal. lia.
Qed.

Lemma lookup_adj_NoDup a i k nbrs :
  NoDup a.*1 → a !! i = Some (k, nbrs) → Nx.lookup_adj a k = Some nbrs.
Proof.
  revert i. induction a as [|[k' nb] a IH]; intros i; [done|].
  intros [Hk Hnd]%NoDup_cons. destruct i as [|i]; simpl.
  - intros [= -> ->]. by rewrite decide_True.
  - intros Hi. rewrite decide_False; [by eapply IH|].
    intros ->. apply Hk. apply list_elem_of_fmap. exists (k, nbrs).
    split; [done|]. by eapply list_elem_of_lookup_2.
Qed.

(** X3: on an undirected graph the canonical list for offset 0 holds exactly
    the pairs [(a, b)] with [a ≤ b] and [b] a neighbour of [a], each once. *)
Theorem get_ordered_edges_elem (g : Nx.Graph) (a b : Z) :
  Nx.wf g → Nx.symmetric g →
  NoDup (get_ordered_edges g 0)
  ∧ ((a, b) ∈ get_ordered_edges g 0
     ↔ a ≤ b ∧ ∃ nbrs, Nx.neighbors g a = Ok nbrs ∧ b ∈ nbrs).
Proof.
  intros Hwf Hsym. split; [by apply NoDup_get_ordered_edges|].
  assert (Hedge : ∀ u v, (u, v) ∈ Nx.edges g →
            ∃ nbrs, Nx.lookup_adj (Nx.adj g) u = Some nbrs ∧ v ∈ nbrs).
  { intros u v (i & nbrs & Hi & Hv & _)%elem_of_edges_from.
    exists nbrs. split; [|done]. eapply lookup_adj_NoDup; [apply Hwf|done]. }
  unfold get_ordered_edges. rewrite foldl_snoc_fmap. simpl.
  rewrite sort_by_Permutation, list_elem_of_fmap. split.
  - intros ([u v] & Heq & Hin). rewrite ordered_edge_min_max in Heq.
    simpl in Heq. injection Heq as -> ->. split; [lia|].
    destruct (Hedge u v Hin) as (nbrs & Hu & Hv).
    destruct (decide (u ≤ v)) as [Huv|Huv].
    + rewrite Z.min_l, Z.max_r, Z.sub_0_r by lia.
      exists nbrs. by rewrite neighbors_lookup.
    + rewrite Z.min_r, Z.max_l, Z.sub_0_r by lia.
      destruct (Hsym u v nbrs Hu Hv) as (nbrs' & Hv' & Hu').
      exists nbrs'. by rewrite neighbors_lookup.
  - intros (Hab & nbrs & Ha%neighbors_lookup & Hb).
    destruct (edges_cover g a b nbrs Hsym Ha Hb) as [Hin|Hin].
    + exists (a, b). split; [|done]. rewrite ordered_edge_min_max. simpl.
      f_equal; lia.
    + exists (b, a). split; [|done]. rewrite ordered_edge_min_max. simpl.
      f_equal; lia.
Qed.

Lemma demo_graph_symmetric : Nx.symmetric demo_graph.
Proof.
  intros u v nbrs Hl Hv. simpl in Hl.
  repeat (case_decide; [subst u; injection Hl as <-|]); [..|done];
    repeat (apply elem_of_cons in Hv as [->|Hv]);
    try (by apply elem_of_nil in Hv);
    eexists; (split; [reflexivity|]); set_solver.
Qed.

Lemma get_ordered_edges_elem_witness :
  NoDup (get_ordered_edges demo_graph 0)
  ∧ ((0, 4) ∈ get_ordered_edges demo_graph 0
     ↔ 0 ≤ 4 ∧ ∃ nbrs, Nx.neighbors demo_graph 0 = Ok nbrs ∧ 4 ∈ nbrs).
Proof.
  apply get_ordered_edges_elem; [compute_done|apply demo_graph_symmetric].
Defined.

(** ** More on the clause text *)

Lemma lacks_app c (a b : string) : lacks c (a +:+ b) = lacks c a && lacks c b.
Proof.
  induction a as [|x a IH]; [done|]. rewrite append_cons. simpl.
  rewrite IH. by rewrite andb_assoc.
Qed.

Lemma lacks_uint c (d : Decimal.uint) :
  (c = " " ∨ c = "." ∨ c = "/")%char →
  lacks c (NilEmpty.string_of_uint d) = true.
Proof.
  intros Hc. induction d; simpl; try done;
    rewrite IHd, andb_true_r; apply negb_true_iff, bool_decide_eq_false;
    by destruct Hc as [->|[->| ->]].
Qed.

(** A printed integer holds digits and a sign, nothing else. *)
Lemma lacks_format_int c (i : Z) :
  (c = " " ∨ c = "." ∨ c = "/")%char → lacks c (format_int i) = true.
Proof.
  intros Hc. unfold format_int, NilZero.string_of_int, NilZero.string_of_uint.
  assert (Hd : negb (bool_decide ("-"%char = c)) = true).
  { apply negb_true_iff, bool_decide_eq_false. by destruct Hc as [->|[->| ->]]. }
  assert (H0 : negb (bool_decide ("0"%char = c)) = true).
  { apply negb_true_iff, bool_decide_eq_false. by destruct Hc as [->|[->| ->]]. }
  assert (Hu : ∀ d, lacks c (NilZero.string_of_uint d) = true).
  { intros d. destruct d; try exact (lacks_uint c _ Hc).
    simpl. by rewrite H0. }
  destruct (Z.to_int i) as [d|d]; [apply Hu|].
  change (negb (bool_decide ("-"%char = c))
          && lacks c (NilZero.string_of_uint d) = true).
  by rewrite Hd, Hu.
Qed.

(** What stands before the first [c] of a text is determined by the
    text. *)
Lemma sep_inj c (a b r r' : string) :
  lacks c a = true → lacks c b = true →
  a +:+ String c r = b +:+ String c r' → a = b ∧ r = r'.
Proof.
  revert b. induction a as [|x a IH]; intros [|y b]; simpl.
  - intros _ _ [= ->]. done.
  - intros _ [Hy _]%andb_prop. rewrite append_cons. intros [= <- _].
    apply negb_true_iff, bool_decide_eq_false in Hy. done.
  - intros [Hx _]%andb_prop _. rewrite append_cons. intros [= -> _].
    apply negb_true_iff, bool_decide_eq_false in Hx. done.
  - intros [_ Ha]%andb_prop [_ Hb]%andb_prop. rewrite !append_cons.
    intros [= -> Heq]. destruct (IH b Ha Hb Heq) as [-> ->]. done.
Qed.

Lemma format_int_inj (i j : Z) : format_int i = format_int j → i = j.
Proof.
  unfold format_int. intros Heq. apply to_int_inj.
  assert (Hnn : ∀ z, NilZero.int_of_string (NilZero.string_of_int (Z.to_int z))
                     = Some (Z.to_int z)).
  { intros z. apply NilZero.isi; destruct z; simpl; try done;
      intros [= H]; by apply Unsigned.to_uint_nonnil in H. }
  pose proof (Hnn i) as Hi. rewrite Heq, Hnn in Hi. by injection Hi.
Qed.

Lemma fields_inj (l1 l2 : list Z) :
  String.concat "" ((λ d, format_int d +:+ " ") <$> l1)
  = String.concat "" ((λ d, format_int d +:+ " ") <$> l2) →
  l1 = l2.
Proof.
  revert l2. induction l1 as [|d1 l1 IH]; intros [|d2 l2];
    rewrite ?fmap_cons, ?concat_cons; cbn beta; rewrite ?append_assoc.
  - done.
  - simpl. intros Heq. symmetry in Heq.
    destruct (format_int d2) as [|x f]; by rewrite ?append_cons in Heq.
  - simpl. intros Heq.
    destruct (format_int d1) as [|x f]; by rewrite ?append_cons in Heq.
  - intros Heq. apply sep_inj in Heq as [Hd Hr];
      [|by apply lacks_format_int; left..].
    apply format_int_inj in Hd as ->. f_equal. by apply IH.
Qed.

Lemma dimacs_literal_range nv lit :
  0 ≤ lit < 2 * nv →
  dimacs_literal nv lit ≠ 0 ∧ - nv ≤ dimacs_literal nv lit ≤ nv.
Proof. unfold dimacs_literal. case_decide; lia. Qed.

(** X4: when every neighbour of a clause node is a literal node (between 0
    and [2 * num_var]), the clause text is the list of its DIMACS literals,
    in neighbour order and a blank after each, and every one of them is a
    literal of the header's variables: not 0 and between [-num_var] and
    [num_var]. *)
Theorem clause_literals_valid (num_var : Z) (neighbors : list Z) :
  Forall (λ lit, 0 ≤ lit < 2 * num_var) neighbors →
  clause_loop num_var "" neighbors
  = Ok (String.concat ""
          ((λ d, format_int d +:+ " ") <$> (dimacs_literal num_var <$> neighbors)))
  ∧ Forall (λ d, d ≠ 0 ∧ - num_var ≤ d ≤ num_var)
      (dimacs_literal num_var <$> neighbors).
Proof.
  intros Hall. split.
  - rewrite clause_loop_text.
    + by rewrite <- list_fmap_compose.
    + eapply Forall_impl; [done|]. intros lit [_ ?]. by right.
  - apply Forall_fmap. eapply Forall_impl; [done|].
    intros lit ?. by apply dimacs_literal_range.
Qed.

Lemma clause_literals_valid_witness :
  clause_loop 2 "" [0; 3] = Ok "1 -2 "%string
  ∧ Forall (λ d, d ≠ 0 ∧ - 2 ≤ d ≤ 2) [1; -2].
Proof.
  apply (clause_literals_valid 2 [0; 3]).
  repeat constructor; lia.
Defined.

(** X5: the clause text determines the clause: two lists of literal nodes
    that are written as the same text are the same list. *)
Theorem clause_loop_inj (num_var : Z) (nbrs1 nbrs2 : list Z) (c : string) :
  Forall (λ lit, 0 ≤ lit < 2 * num_var) nbrs1 →
  Forall (λ lit, 0 ≤ lit < 2 * num_var) nbrs2 →
  clause_loop num_var "" nbrs1 = Ok c →
  clause_loop num_var "" nbrs2 = Ok c →
  nbrs1 = nbrs2.
Proof.
  intros H1 H2 Hc1 Hc2.
  rewrite clause_loop_text in Hc1, Hc2
    by (eapply Forall_impl; [done|]; intros lit [_ ?]; by right).
  rewrite <- Hc2 in Hc1. injection Hc1 as Heq.
  assert (Hnest : ∀ l : list Z,
            (λ lit, format_int (dimacs_literal num_var lit) +:+ " ") <$> l
            = (λ d, format_int d +:+ " ") <$> (dimacs_literal num_var <$> l))
    by (intros l; by rewrite <- list_fmap_compose).
  rewrite !Hnest in Heq. apply fields_inj in Heq. clear Hc2 Hnest.
  revert nbrs2 H2 Heq. induction H1 as [|a nbrs1 Ha _ IH]; intros nbrs2 H2.
  - by destruct nbrs2.
  - destruct H2 as [|b nbrs2 Hb H2]; [done|].
    rewrite !fmap_cons. intros [= Hab Hrest]. f_equal; [|by apply IH].
    unfold dimacs_literal in Hab. repeat case_decide; lia.
Qed.

Lemma clause_loop_inj_witness :
  clause_loop 2 "" [0; 3] = Ok "1 -2 "%string ∧ [0; 3] = [0; 1 + 2].
Proof.
  split; [reflexivity|].
  apply (clause_loop_inj 2 [0; 3] [0; 1 + 2] "1 -2 ");
    try reflexivity; repeat constructor; lia.
Defined.

(** ** Graphs built by add_edges_from *)

Lemma lookup_adj_app a b x :
  Nx.lookup_adj (a ++ b) x
  = match Nx.lookup_adj a x with
    | Some nbrs => Some nbrs
    | None => Nx.lookup_adj b x
    end.
Proof.
  induction a as [|[k nb] a IH]; simpl; [done|]. by case_decide.
Qed.

Lemma lookup_touch a n x :
  Nx.lookup_adj (Nx.touch a n) x
  = match Nx.lookup_adj a x with
    | Some nbrs => Some nbrs
    | None => if decide (n = x) then Some [] else None
    end.
Proof.
  unfold Nx.touch. destruct (Nx.lookup_adj a n) as [nb|] eqn:Hn.
  - destruct (Nx.lookup_adj a x) eqn:Hx; [done|].
    case_decide; [|done]. subst. congruence.
  - rewrite lookup_adj_app. simpl. by destruct (Nx.lookup_adj a x).
Qed.

Lemma lookup_link a u v x :
  Nx.lookup_adj (Nx.link a u v) x
  = (λ nbrs, if decide (x = u)
             then (if decide (v ∈ nbrs) then nbrs else nbrs ++ [v])
             else nbrs) <$> Nx.lookup_adj a x.
Proof.
  induction a as [|[k nb] a IH]; simpl; [done|].
  destruct (decide (k = u)) as [->|Hku]; simpl.
  - destruct (decide (u = x)) as [->|Hux]; simpl.
    + by destruct (decide (x = x)).
    + destruct (Nx.lookup_adj a x); simpl; [|done].
      by destruct (decide (x = u)); [subst|].
  - destruct (decide (k = x)) as [->|Hkx]; simpl; [|done].
    by destruct (decide (x = u)); [subst|].
Qed.

Lemma elem_of_append_new (q w : Z) (nbrs : list Z) :
  w ∈ (if decide (q ∈ nbrs) then nbrs else nbrs ++ [q]) ↔ w ∈ nbrs ∨ w = q.
Proof.
  case_decide.
  - split; [by left|]. by intros [?| ->].
  - by rewrite elem_of_app, list_elem_of_singleton.
Qed.

Lemma adjacent_touch a n x w : adjacent (Nx.touch a n) x w ↔ adjacent a x w.
Proof.
  unfold adjacent. rewrite lookup_touch.
  destruct (Nx.lookup_adj a x) as [nb|]; [done|].
  split; intros (nbrs & Hl & Hw); [|done].
  case_decide; [|done]. injection Hl as <-. by apply elem_of_nil in Hw.
Qed.

Lemma is_Some_touch a n x :
  is_Some (Nx.lookup_adj (Nx.touch a n) x)
  ↔ is_Some (Nx.lookup_adj a x) ∨ x = n.
Proof.
  rewrite lookup_touch. destruct (Nx.lookup_adj a x) as [nb|].
  - split; [by left|done].
  - case_decide; subst.
    + split; [by right|done].
    + split; [by intros []|]. intros [[]|]; done.
Qed.

Lemma is_Some_link a u v x :
  is_Some (Nx.lookup_adj (Nx.link a u v) x) ↔ is_Some (Nx.lookup_adj a x).
Proof. rewrite lookup_link. by rewrite fmap_is_Some. Qed.

Lemma adjacent_link a u v x w :
  adjacent (Nx.link a u v) x w
  ↔ adjacent a x w ∨ (x = u ∧ w = v ∧ is_Some (Nx.lookup_adj a u)).
Proof.
  unfold adjacent. rewrite lookup_link.
  destruct (Nx.lookup_adj a x) as [nb|] eqn:Hx; simpl.
  - destruct (decide (x = u)) as [->|Hxu].
    + split.
      * intros (nbrs & [= <-] & [Hw| ->]%elem_of_append_new).
        -- left. by exists nb.
        -- right. by rewrite Hx.
      * intros [(nbrs & [= <-] & Hw)|(_ & -> & _)];
          (eexists; split; [done|]); apply elem_of_append_new; auto.
    + split.
      * intros (nbrs & [= <-] & Hw). left. by exists nb.
      * intros [(nbrs & [= <-] & Hw)|(? & _)]; [|done]. by exists nb.
  - split.
    + by intros (nbrs & ? & _).
    + intros [(nbrs & ? & _)|(-> & _ & Hs)]; [done|].
      rewrite Hx in Hs. by destruct Hs.
Qed.

(** One more edge: one more neighbour on each side, nothing else. *)
Lemma adjacent_add_edge g u v x w :
  adjacent (Nx.adj (Nx.add_edge g (u, v))) x w
  ↔ adjacent (Nx.adj g) x w ∨ (x = u ∧ w = v) ∨ (x = v ∧ w = u).
Proof.
  unfold Nx.add_edge. simpl.
  rewrite !adjacent_link, !adjacent_touch, is_Some_link, !is_Some_touch.
  intuition auto.
Qed.

Lemma adjacent_add_edges_from g es x w :
  adjacent (Nx.adj (Nx.add_edges_from g es)) x w
  ↔ adjacent (Nx.adj g) x w ∨ (x, w) ∈ es ∨ (w, x) ∈ es.
Proof.
  unfold Nx.add_edges_from. revert g.
  induction es as [|[u v] es IH]; intros g; cbn [foldl].
  - rewrite !elem_of_nil. intuition auto.
  - rewrite IH, adjacent_add_edge, !elem_of_cons.
    rewrite !pair_eq. tauto.
Qed.

Lemma lookup_adj_keys a x nbrs : Nx.lookup_adj a x = Some nbrs → x ∈ a.*1.
Proof.
  induction a as [|[k nb] a IH]; simpl; [done|].
  case_decide; [subst; left|right; auto].
Qed.

(** ** The evaluation loop *)

Lemma adjacent_generated (es : list (Z * Z)) x w :
  adjacent (Nx.adj (Nx.add_edges_from Nx.empty es)) x w
  ↔ (x, w) ∈ es ∨ (w, x) ∈ es.
Proof.
  rewrite adjacent_add_edges_from. split; [|by right].
  intros [(nbrs & Hl & _)|H]; [done|done].
Qed.

Lemma elem_of_range (i n : Z) : i ∈ range n ↔ 0 ≤ i < n.
Proof.
  unfold range. rewrite list_elem_of_fmap. split.
  - intros (k & -> & Hk%elem_of_seq). lia.
  - intros Hi. exists (Z.to_nat i). rewrite elem_of_seq. lia.
Qed.

(** The degree list is there exactly if every index is a node of the graph;
    the one exception it raises is that of networkx. *)
Lemma degrees_cases (g : Nx.Graph) (l : list Z) :
  match degrees g l with
  | Ok ds => length ds = length l ∧ Forall (λ i, i ∈ Nx.nodes g) l
  | Raise e => e = NetworkXError ∧ Exists (λ i, i ∉ Nx.nodes g) l
  end.
Proof.
  induction l as [|i l IH]; simpl; [done|].
  unfold Nx.degree.
  destruct (Nx.lookup_adj (Nx.adj g) i) as [nbrs|] eqn:Hi; simpl.
  - apply lookup_adj_keys in Hi.
    destruct (degrees g l) as [ds|e]; simpl.
    + destruct IH as [Hlen Hall]. split; [by rewrite Hlen|by constructor].
    + destruct IH as [-> Hex]. split; [done|by apply Exists_cons_tl].
  - split; [done|]. apply Exists_cons_hd. intros Hin.
    apply lookup_adj_nodes in Hin as [nbrs Hin]. congruence.
Qed.

Lemma generated_edges_cases generate (g : Nx.Graph) (stat : Z * Z) :
  match generated_edges generate g stat with
  | Ok _ => ∀ i, 0 ≤ i < stat.1 → i ∈ Nx.nodes g
  | Raise e => e = NetworkXError ∧ ∃ i, 0 ≤ i < stat.1 ∧ i ∉ Nx.nodes g
  end.
Proof.
  unfold generated_edges, degree_list.
  pose proof (degrees_cases g (range stat.1)) as H.
  destruct (degrees g (range stat.1)) as [ds|e]; simpl.
  - destruct H as [_ H]. intros i Hi.
    eapply Forall_forall in H; [done|]. by apply elem_of_range.
  - destruct H as [-> (i & Hi%elem_of_range & Hno)%Exists_exists]. eauto.
Qed.

(** X6: once the degree list of line 123 is there, with an even left size
    and generated edges inside the index ranges of the two partitions (left
    index below [stat[0]], right index not negative), the CNF encoding of
    the generated graph cannot fail: an evaluated graph whose report is
    printed gets its file. *)
Theorem eval_graph_encodes
    (generate : Z → list Z → list Z → Z * Z → Z → list (Z * Z))
    (g : Nx.Graph) (stat : Z * Z) (out_dir : string) (g_idx : Z)
    (fs : gmap string string) (generated : list (Z * Z)) (rep : report) :
  stat.1 `mod` 2 = 0 →
  generated_edges generate g stat = Ok generated →
  (∀ u v, (u, v) ∈ generated → u < stat.1 ∧ 0 ≤ v) →
  eval_report generated g stat = Ok rep →
  (∀ i, 0 ≤ i < stat.1 → i ∈ Nx.nodes g)
  ∧ ∃ text,
      eval_graph generate g stat out_dir g_idx fs
      = (Ok rep, <[gen_file out_dir g_idx := text]> fs).
Proof.
  intros Heven Hgen Hrange Hrep. split.
  { pose proof (generated_edges_cases generate g stat) as H.
    by rewrite Hgen in H. }
  unfold eval_graph, gen_file. rewrite Hgen, Hrep.
  cbn zeta. unfold LCG_to_sat.
  set (pred_g := Nx.add_edges_from Nx.empty
                   ((λ e : Z * Z, (e.1, e.2 + stat.1)) <$> generated)).
  pose proof (node_loop_assert pred_g (stat.1 `div` 2) [] (Nx.nodes pred_g)
                (lookup_adj_nodes pred_g)) as Hloop.
  destruct (node_loop pred_g (stat.1 `div` 2) [] (Nx.nodes pred_g))
    as [clauses|e]; [by eexists|].
  exfalso. destruct Hloop as [_ Hex].
  apply Exists_exists in Hex as (node & _ & Hnode & nbrs & Hn & Hlit).
  apply Exists_exists in Hlit as (lit & Hlit & Hlo & Hhi).
  apply neighbors_lookup in Hn.
  assert (Hadj : adjacent (Nx.adj pred_g) node lit) by (by exists nbrs).
  pose proof (Z.div_mod stat.1 2 ltac:(done)) as Hdiv.
  apply adjacent_generated in Hadj as [Hin|Hin];
    apply list_elem_of_fmap in Hin as ([u v] & [= -> ->] & Hin);
    destruct (Hrange u v Hin); simpl in *; lia.
Qed.

Lemma eval_graph_encodes_witness :
  (∀ i, 0 ≤ i < (4, 1).1 → i ∈ Nx.nodes demo_graph)
  ∧ ∃ text,
      eval_graph (λ _ _ _ _ _, [(0, 0); (3, 0)]) demo_graph (4, 1) "out" 0 ∅
      = (Ok (Report 2 2 (2 # 2) (2 # 2)),
         <[gen_file "out" 0 := text]> ∅).
Proof.
  apply (eval_graph_encodes (λ _ _ _ _ _, [(0, 0); (3, 0)]) demo_graph (4, 1)
           "out" 0 ∅ [(0, 0); (3, 0)]).
  - reflexivity.
  - reflexivity.
  - intros u v. rewrite !elem_of_cons, elem_of_nil. simpl.
    intros [[= -> ->]|[[= -> ->]|[]]]; lia.
  - reflexivity.
Defined.

(** X7: with an odd left size the last literal node, [stat[0] - 1], counts
    as a clause node, since [num_var] is [stat[0] // 2]: once the degree
    list of line 123 is there and the report is printed, an edge generated
    at that node makes the encoding fail on the assertion, and no file is
    written. *)
Theorem eval_graph_odd_left_size
    (generate : Z → list Z → list Z → Z * Z → Z → list (Z * Z))
    (g : Nx.Graph) (stat : Z * Z) (out_dir : string) (g_idx : Z)
    (fs : gmap string string) (generated : list (Z * Z)) (rep : report)
    (v : Z) :
  0 ≤ stat.1 → stat.1 `mod` 2 = 1 →
  generated_edges generate g stat = Ok generated →
  (stat.1 - 1, v) ∈ generated → 0 ≤ v →
  eval_report generated g stat = Ok rep →
  eval_graph generate g stat out_dir g_idx fs = (Raise AssertionError, fs).
Proof.
  intros Hpos Hodd Hgen Hin Hv Hrep. unfold eval_graph. rewrite Hgen, Hrep.
  cbn zeta. unfold LCG_to_sat.
  set (pred_g := Nx.add_edges_from Nx.empty
                   ((λ e : Z * Z, (e.1, e.2 + stat.1)) <$> generated)).
  pose proof (node_loop_assert pred_g (stat.1 `div` 2) [] (Nx.nodes pred_g)
                (lookup_adj_nodes pred_g)) as Hloop.
  destruct (node_loop pred_g (stat.1 `div` 2) [] (Nx.nodes pred_g))
    as [clauses|e]; [|by destruct Hloop as [-> _]].
  exfalso.
  pose proof (Z.div_mod stat.1 2 ltac:(done)) as Hdiv.
  assert (Hadj : adjacent (Nx.adj pred_g) (stat.1 - 1) (v + stat.1)).
  { apply adjacent_generated. left. apply list_elem_of_fmap.
    by exists (stat.1 - 1, v). }
  destruct Hadj as (nbrs & Hl & Hw).
  eapply Forall_forall in Hloop; [|by eapply lookup_adj_keys].
  apply Hloop. split; [lia|]. exists nbrs. split; [by apply neighbors_lookup|].
  apply Exists_exists. exists (v + stat.1). split; [done|].
  unfold rejected_lit. lia.
Qed.

Lemma eval_graph_odd_left_size_witness :
  eval_graph (λ _ _ _ _ _, [(0, 0); (2, 0)])
    (Nx.mk [(0, [3]); (1, []); (2, [3]); (3, [0; 2])]) (3, 1) "out" 0 ∅
  = (Raise AssertionError, ∅).
Proof.
  apply (eval_graph_odd_left_size (λ _ _ _ _ _, [(0, 0); (2, 0)])
           (Nx.mk [(0, [3]); (1, []); (2, [3]); (3, [0; 2])]) (3, 1) "out" 0 ∅
           [(0, 0); (2, 0)] (Report 2 2 (2 # 2) (2 # 2)) 0).
  - simpl. lia.
  - reflexivity.
  - reflexivity.
  - simpl. rewrite !elem_of_cons. auto.
  - lia.
  - reflexivity.
Defined.



Lemma eval_report_raise generated g stat e :
  eval_report generated g stat = Raise e → e = ZeroDivisionError.
Proof.
  unfold eval_report, len_div. cbn zeta.
  repeat case_decide; simpl; congruence.
Qed.

(** X15: a turn of the evaluation loop ends in networkx's error exactly if
    some index below [stat[0]] is no node of the test graph: the degree list
    of line 123 raises it, before the generation call, and nothing is
    reported or written.  No later line of the turn raises this error. *)
Theorem eval_graph_missing_node
    (generate : Z → list Z → list Z → Z * Z → Z → list (Z * Z))
    (g : Nx.Graph) (stat : Z * Z) (out_dir : string) (g_idx : Z)
    (fs : gmap string string) :
  eval_graph generate g stat out_dir g_idx fs = (Raise NetworkXError, fs)
  ↔ ∃ i, 0 ≤ i < stat.1 ∧ i ∉ Nx.nodes g.
Proof.
  pose proof (generated_edges_cases generate g stat) as Hgen.
  unfold eval_graph.
  destruct (generated_edges generate g stat) as [generated|e].
  - split.
    + intros Hr. exfalso.
      destruct (eval_report generated g stat) as [rep|e] eqn:Hrep.
      * cbn zeta in Hr. unfold LCG_to_sat in Hr.
        match type of Hr with context [node_loop ?pg ?nv [] ?ns] =>
          pose proof (node_loop_assert pg nv [] ns (lookup_adj_nodes pg))
            as Hloop;
          destruct (node_loop pg nv [] ns) as [clauses|e] end.
        -- done.
        -- destruct Hloop as [-> _]. done.
      * apply eval_report_raise in Hrep as ->. done.
    + intros (i & Hi & Hno). exfalso. by apply Hno, Hgen.
  - destruct Hgen as [-> Hex]. done.
Qed.


(** ** The library of registered graphs *)

(** X9: a load that succeeds appends to the tree library: what was
    registered stays where it was, and the [i]-th graph read sits at
    position [len(lib) + i] with the [i]-th stats pair.  On an empty library
    the position is [i], the index the training loop hands to the model. *)
Theorem load_graphs_ids (graph_pkl : list (record Nx.Graph))
    (stats_pkl : list (record (list (Z * Z))))
    (lib lib' : list (Nx.Graph * (Z * Z)))
    (graphs : list Nx.Graph) (stats : list (Z * Z)) :
  load_graphs graph_pkl stats_pkl lib = (Ok (graphs, stats), lib') →
  length lib' = (length lib + length graphs)%nat
  ∧ (∀ i, (i < length lib)%nat → lib' !! i = lib !! i)
  ∧ (∀ i g st, graphs !! i = Some g → stats !! i = Some st →
       lib' !! (length lib + i)%nat = Some (g, st)).
Proof.
  unfold load_graphs. destruct (cp_load stats_pkl) as [[st0|e] rest]; [|done].
  case_decide as Hlen; [|done]. rewrite insert_all. intros [= <- <- <-].
  split_and!.
  - rewrite length_app, length_zip. lia.
  - intros i Hi. by apply lookup_app_l.
  - intros i g st Hg Hst. rewrite lookup_app_r by lia.
    replace (length lib + i - length lib)%nat with i by lia.
    by apply lookup_zip_Some.
Qed.

Lemma load_graphs_ids_witness :
  length [(Nx.empty, (0, 0)); (demo_graph, (4, 1))] = (1 + 1)%nat
  ∧ (∀ i, (i < 1)%nat →
       [(Nx.empty, (0, 0)); (demo_graph, (4, 1))] !! i
       = [(Nx.empty, (0, 0))] !! i)
  ∧ (∀ i g st, [demo_graph] !! i = Some g → [(4, 1)] !! i = Some st →
       [(Nx.empty, (0, 0)); (demo_graph, (4, 1))] !! (1 + i)%nat = Some (g, st)).
Proof.
  exact (load_graphs_ids [Rec demo_graph] [Rec [(4, 1)]]
           [(Nx.empty, (0, 0))] [(Nx.empty, (0, 0)); (demo_graph, (4, 1))]
           [demo_graph] [(4, 1)] eq_refl).
Defined.

(** ** Epochs *)

Lemma chunked_loop_model_calls
    (model_ll : list call → call → Q) (args : cmd_args)
    (train_graphs : list Nx.Graph) (stats : list (Z * Z)) batch ll w :
  ∃ new,
    trace (chunked_loop model_ll args train_graphs stats ll batch w).2
    = trace w ++ new
    ∧ Forall (λ c, is_model_call c = true) new.
Proof.
  revert ll w. induction batch as [|i batch IH]; intros ll w; simpl.
  - exists []. by rewrite app_nil_r.
  - unfold bind, lift, ask.
    destruct (getitem train_graphs i) as [g|e];
      [|exists []; by rewrite app_nil_r].
    destruct (getitem stats i) as [st|e];
      [|exists []; by rewrite app_nil_r].
    destruct (float_div 1 (Nx.len g)) as [q|e];
      [|exists []; by rewrite app_nil_r].
    match goal with |- context [chunked_loop _ _ _ _ ?ll' batch ?w'] =>
      destruct (IH ll' w') as (new & Hnew & Hall);
      destruct (chunked_loop _ _ _ _ ll' batch w') as [r w2] end.
    simpl in *. rewrite Hnew. eexists (_ :: new).
    rewrite <- app_assoc. split; [done|]. by constructor.
Qed.

Lemma train_batch_model_calls
    (model_ll : list call → call → Q) (args : cmd_args)
    (train_graphs : list Nx.Graph) (stats : list (Z * Z)) batch w :
  ∃ new,
    trace (train_batch model_ll args train_graphs stats batch w).2
    = trace w ++ new
    ∧ Forall (λ c, is_model_call c = true) new.
Proof.
  unfold train_batch, bind, lift.
  destruct (total_nodes train_graphs batch) as [num_nodes|e];
    [|exists []; by rewrite app_nil_r].
  case_decide.
  - destruct (col_ranges stats batch) as [cols|e];
      [|exists []; by rewrite app_nil_r].
    unfold ask, emit, ret. simpl. eexists [_; _].
    rewrite <- app_assoc. split; [done|]. by repeat constructor.
  - destruct (chunked_loop_model_calls model_ll args train_graphs stats
                batch 0%Q w) as (new & Hnew & Hall).
    destruct (chunked_loop _ _ _ _ _ batch w) as [[ll|e] w2]; [|by exists new].
    destruct (float_div (- ll) num_nodes); by exists new.
Qed.

Lemma pending_after_reset (t rest : list call) :
  pending (t ++ zero_grad :: rest) = pending rest.
Proof. unfold pending. by rewrite foldl_app. Qed.

(** A batch that gets its loss has put a gradient into the buffers: the
    [backward] of the whole batch, or the chunked pass of its first graph
    (the chunked branch is not entered with an empty batch, whose node count
    0 is below any [blksize] that is not negative). *)
Lemma train_batch_gradient
    (model_ll : list call → call → Q) (args : cmd_args)
    (train_graphs : list Nx.Graph) (stats : list (Z * Z)) batch w loss w' new :
  train_batch model_ll args train_graphs stats batch w = (Ok loss, w') →
  trace w' = trace w ++ new →
  Exists (λ c, adds_gradient c = true) new.
Proof.
  unfold train_batch, bind, lift.
  destruct (total_nodes train_graphs batch) as [num_nodes|e] eqn:Hn; [|done].
  case_decide as Hcond.
  - destruct (col_ranges stats batch) as [cols|e]; [|done].
    unfold ask, emit, ret. simpl. intros [= <- <-]. simpl.
    rewrite <- app_assoc. intros Hnew%app_inv_head. subst new.
    apply Exists_cons_tl, Exists_cons_hd. done.
  - destruct batch as [|i batch].
    { simpl in Hn. injection Hn as <-. lia. }
    simpl. unfold bind, lift, ask.
    destruct (getitem train_graphs i) as [g|e]; [|done].
    destruct (getitem stats i) as [st|e]; [|done].
    destruct (float_div 1 (Nx.len g)) as [q|e]; [|done].
    match goal with |- context [chunked_loop _ _ _ _ ?ll' batch ?w'] =>
      destruct (chunked_loop_model_calls model_ll args train_graphs stats
                  batch ll' w') as (more & Hmore & _);
      destruct (chunked_loop _ _ _ _ ll' batch w') as [[ll|e] w2] end;
      [|done].
    destruct (float_div (- ll) num_nodes); [|done].
    unfold ret. intros [= <- <-]. simpl in Hmore. rewrite Hmore.
    rewrite <- app_assoc. intros Hnew%app_inv_head. subst new.
    apply Exists_cons_hd. done.
Qed.

Lemma filter_all_false {A} (f g : A → bool) (l : list A) :
  Forall (λ x, g x = true) l → (∀ x, g x = true → f x = false) →
  filter (λ x, f x) l = [].
Proof.
  intros Hall Hfg. apply filter_none. eapply Forall_impl; [done|]. auto.
Qed.

Section epoch_facts.
Context (model_ll : list call → call → Q) (args : cmd_args).
Context (train_graphs : list Nx.Graph) (stats : list (Z * Z)).
Hypothesis Hlen : length stats = length train_graphs.
Hypothesis Hnodes : Forall (λ g, Nx.len g ≠ 0) train_graphs.
Hypothesis Haccum : accum_grad args ≠ 0.

Let pool (w : world) : Prop := indices w ≡ₚ seq 0 (length train_graphs).

(** A step on well-formed data: the calls of the batch, the optimizer calls
    of the step, the progress line. *)
Lemma train_step_shape epoch idx w :
  pool w →
  ∃ w' batch_calls loss,
    train_step model_ll args train_graphs stats epoch idx w = (Ok (), w')
    ∧ pool w'
    ∧ trace w' = trace w ++ batch_calls ++ step_calls args idx
                   ++ [set_description epoch idx loss]
    ∧ Forall (λ c, is_model_call c = true) batch_calls
    ∧ Exists (λ c, adds_gradient c = true) batch_calls.
Proof.
  intros Hinv. unfold pool in *.
  unfold train_step, bind at 1, draw_batch.
  pose proof (shuffle_Permutation (indices w) (tape w)) as Hp.
  destruct (shuffle (indices w) (tape w)) as [x tape']. simpl in Hp.
  set (batch := slice_to x (batch_size args)).
  set (w0 := World (trace w) x tape').
  assert (Hsub : ∀ i, i ∈ batch → (i < length train_graphs)%nat).
  { intros i Hi.
    assert (i ∈ x) as Hix.
    { unfold batch, slice_to in Hi. case_decide;
        (eapply elem_of_sublist; [exact Hi|apply sublist_take]). }
    rewrite Hp, Hinv in Hix. apply elem_of_seq in Hix. lia. }
  assert (Hlens : ∀ i, i ∈ batch → graph_len train_graphs i ≠ 0).
  { intros i Hi. destruct (lookup_lt_is_Some_2 train_graphs i (Hsub i Hi))
      as [g Hg].
    unfold graph_len. rewrite Hg. simpl.
    eapply Forall_forall in Hnodes; [done|]. by eapply list_elem_of_lookup_2. }
  unfold bind at 1.
  destruct (train_batch_model_calls model_ll args train_graphs stats batch w0)
    as (new' & Hnew' & Hmodel).
  destruct (train_batch_returns model_ll args train_graphs stats batch w0
              Hlen Hsub Hlens) as (loss & new & Hrun).
  rewrite Hrun in Hnew'. simpl in Hnew'. apply app_inv_head in Hnew'.
  subst new'.
  pose proof (train_batch_gradient model_ll args train_graphs stats batch w0
                loss _ new Hrun eq_refl) as Hgrad.
  rewrite Hrun.
  unfold bind. rewrite maybe_step_cases. rewrite decide_False by done.
  unfold step_calls.
  case_decide; unfold emit; simpl.
  - eexists _, new, loss. split; [reflexivity|]. simpl.
    split_and!; [by rewrite Hp| |done|done].
    by rewrite <- !app_assoc.
  - eexists _, new, loss. split; [reflexivity|]. simpl.
    split_and!; [by rewrite Hp| |done|done].
    by rewrite <- !app_assoc.
Qed.

(** A step on well-formed data, with what it adds to the trace. *)
Lemma train_step_run epoch idx w :
  pool w →
  ∃ w' new,
    train_step model_ll args train_graphs stats epoch idx w = (Ok (), w')
    ∧ pool w'
    ∧ trace w' = trace w ++ new
    ∧ filter (λ c, is_optimizer_call c) new = step_calls args idx
    ∧ filter (λ c, is_step c) new = step_taken args idx
    ∧ filter (λ c, is_save c) new = [].
Proof.
  intros Hinv.
  destruct (train_step_shape epoch idx w Hinv)
    as (w' & new & loss & Hrun & Hinv' & Ht & Hmodel & _).
  assert (Hopt : filter (λ c, is_optimizer_call c) new = []).
  { eapply filter_all_false; [done|]. by intros []. }
  assert (Hstep : filter (λ c, is_step c) new = []).
  { eapply filter_all_false; [done|]. by intros []. }
  assert (Hsave : filter (λ c, is_save c) new = []).
  { eapply filter_all_false; [done|]. by intros []. }
  exists w', (new ++ step_calls args idx ++ [set_description epoch idx loss]).
  split_and!; [done..| | |].
  - rewrite !filter_app, Hopt. unfold step_calls.
    case_decide; [|done]. by destruct (Qlt_le_dec 0 (grad_clip args)).
  - rewrite !filter_app, Hstep. unfold step_calls, step_taken.
    case_decide; [|done]. by destruct (Qlt_le_dec 0 (grad_clip args)).
  - rewrite !filter_app, Hsave. unfold step_calls.
    case_decide; [|done]. by destruct (Qlt_le_dec 0 (grad_clip args)).
Qed.

(** What is pending after a step: nothing if the step stepped the
    optimizer, the gradients of the batch at least if it did not. *)
Lemma train_step_pending epoch idx w :
  pool w →
  ∃ w',
    train_step model_ll args train_graphs stats epoch idx w = (Ok (), w')
    ∧ pool w'
    ∧ (pending (trace w') = [] ↔ (accum_grad args | idx + 1)).
Proof.
  intros Hinv.
  destruct (train_step_shape epoch idx w Hinv)
    as (w' & new & loss & Hrun & Hinv' & Ht & Hmodel & Hgrad).
  exists w'. split_and!; [done..|]. rewrite Ht. unfold step_calls.
  case_decide as Hd.
  - split; [done|]. intros _.
    replace (trace w ++ new
               ++ ((if Qlt_le_dec 0 (grad_clip args)
                    then [clip_grad_norm_ (grad_clip args)] else [])
                   ++ [optimizer_step; zero_grad])
               ++ [set_description epoch idx loss])
      with ((trace w ++ new
               ++ (if Qlt_le_dec 0 (grad_clip args)
                   then [clip_grad_norm_ (grad_clip args)] else [])
               ++ [optimizer_step])
              ++ zero_grad :: [set_description epoch idx loss])
      by (by rewrite <- !app_assoc).
    by rewrite pending_after_reset.
  - split; [|done]. simpl. rewrite pending_app.
    + intros Hnil. apply app_eq_nil in Hnil as [_ Hnil].
      rewrite filter_app in Hnil. apply app_eq_nil in Hnil as [Hnil _].
      apply Exists_exists in Hgrad as (c & Hc & Hadd).
      assert (c ∈ filter (λ c, adds_gradient c) new) as Hin.
      { apply list_elem_of_filter. split; [by rewrite Hadd|done]. }
      rewrite Hnil in Hin. by apply elem_of_nil in Hin.
    + apply Forall_app. split; [|by repeat constructor].
      eapply Forall_impl; [done|]. by intros [].
Qed.
End epoch_facts.

(** A loop whose body always returns: what the loop adds to the trace is
    what the bodies add, in order, under every filter of the family [K]. *)
Lemma for_each_filter {A} (P : world → Prop)
    (K : (call → bool) → (A → list call) → Prop)
    (body : A → M unit) (l : list A) (w : world) :
  (∀ x w, P w →
     ∃ w' new, body x w = (Ok (), w') ∧ P w' ∧ trace w' = trace w ++ new
       ∧ ∀ keep F, K keep F → filter (λ c, keep c) new = F x) →
  P w →
  ∃ w' new, for_each l body w = (Ok (), w') ∧ P w'
    ∧ trace w' = trace w ++ new
    ∧ ∀ keep F, K keep F → filter (λ c, keep c) new = concat (F <$> l).
Proof.
  intros Hbody. revert w. induction l as [|x l IH]; intros w HP; simpl.
  - exists w, []. rewrite app_nil_r. by split_and!.
  - unfold bind.
    destruct (Hbody x w HP) as (w1 & new1 & -> & HP1 & Ht1 & Hf1).
    destruct (IH w1 HP1) as (w2 & new2 & -> & HP2 & Ht2 & Hf2).
    exists w2, (new1 ++ new2). split_and!; [done|done| |].
    + by rewrite Ht2, Ht1, <- app_assoc.
    + intros keep F HK. rewrite filter_app, (Hf1 _ _ HK), (Hf2 _ _ HK).
      done.
Qed.

Lemma div_succ (k m : Z) :
  0 < k → 0 ≤ m →
  (m + 1) / k = m / k + (if decide (k | m + 1) then 1 else 0).
Proof.
  intros Hk Hm.
  pose proof (Z.div_mod m k ltac:(lia)) as Hdm.
  pose proof (Z.mod_pos_bound m k Hk) as Hr.
  case_decide as Hd.
  - destruct Hd as [c Hc]. rewrite Hc, Z.div_mul by lia. nia.
  - symmetry. apply Z.div_unique with (r := m mod k + 1); [|lia].
    left. split; [lia|].
    destruct (decide (m mod k + 1 = k)) as [Heq|]; [|lia].
    exfalso. apply Hd. exists (m / k + 1). lia.
Qed.

(** Of the steps [0, ..., n - 1] those whose 1-based index is a multiple of
    [accum_grad] are [n // accum_grad] many. *)
Lemma step_taken_count (args : cmd_args) (n : Z) :
  0 < accum_grad args →
  length (concat (step_taken args <$> range n))
  = Z.to_nat (n / accum_grad args).
Proof.
  intros Hk. unfold range.
  destruct (decide (n < 0)) as [Hneg|Hpos].
  { rewrite Z2Nat.nonpos by lia. simpl.
    pose proof (Z.div_lt_upper_bound n (accum_grad args) 0 Hk ltac:(lia)).
    lia. }
  rewrite <- (Z2Nat.id n) at 2 by lia.
  generalize (Z.to_nat n) as m. clear n Hpos. intros m.
  induction m as [|m IH]; [done|].
  rewrite seq_S, !fmap_app, concat_app, length_app, IH. simpl.
  replace (Z.of_nat (S m)) with (Z.of_nat m + 1) by lia.
  rewrite (div_succ (accum_grad args) (Z.of_nat m)) by lia.
  pose proof (Z.div_pos (Z.of_nat m) (accum_grad args) ltac:(lia) Hk).
  unfold step_taken. case_decide; simpl; lia.
Qed.

Section epoch_runs.
Context (model_ll : list call → call → Q) (args : cmd_args).
Context (train_graphs : list Nx.Graph) (stats : list (Z * Z)).
Hypothesis Hlen : length stats = length train_graphs.
Hypothesis Hnodes : Forall (λ g, Nx.len g ≠ 0) train_graphs.
Hypothesis Haccum : accum_grad args ≠ 0.

(** An epoch on well-formed data, with what it adds to the trace. *)
Lemma train_epoch_run epoch w :
  indices w ≡ₚ seq 0 (length train_graphs) →
  ∃ w' rest,
    train_epoch model_ll args train_graphs stats epoch w = (Ok (), w')
    ∧ indices w' ≡ₚ seq 0 (length train_graphs)
    ∧ trace w' = trace w ++ zero_grad :: rest ++ [torch_save epoch]
    ∧ filter (λ c, is_optimizer_call c) rest
      = concat (step_calls args <$> range (epoch_save args))
    ∧ filter (λ c, is_step c) rest
      = concat (step_taken args <$> range (epoch_save args))
    ∧ filter (λ c, is_save c) rest = [].
Proof.
  intros Hinv. unfold train_epoch, bind at 1, emit at 1. unfold bind at 1.
  destruct (for_each_filter
              (λ w, indices w ≡ₚ seq 0 (length train_graphs))
              (λ keep F,
                 (keep = is_optimizer_call ∧ F = step_calls args)
                 ∨ (keep = is_step ∧ F = step_taken args)
                 ∨ (keep = is_save ∧ F = λ _, []))
              (train_step model_ll args train_graphs stats epoch)
              (range (epoch_save args))
              (World (trace w ++ [zero_grad]) (indices w) (tape w)))
    as (w1 & rest & -> & Hinv1 & Ht & Hf); [|done|].
  - intros idx w1 Hinv1.
    destruct (train_step_run model_ll args train_graphs stats Hlen Hnodes
                Haccum epoch idx w1 Hinv1)
      as (w2 & new & Hrun & Hinv2 & Ht & Ho & Hs & Hv).
    exists w2, new. split_and!; [done..|].
    intros keep F [[-> ->]|[[-> ->]|[-> ->]]]; done.
  - unfold emit. simpl in *. eexists _, rest. split; [reflexivity|]. simpl.
    split_and!; [done| | | |].
    + rewrite Ht, <- !app_assoc. done.
    + apply Hf. by left.
    + apply Hf. right. by left.
    + rewrite (Hf is_save (λ _, [])) by (right; by right).
      generalize (range (epoch_save args)). by induction l.
Qed.
End epoch_runs.

Lemma last_cons_snoc {A} (x y : A) (l : list A) :
  last (x :: l ++ [y]) = Some y.
Proof. by rewrite app_comm_cons, last_snoc. Qed.

(** X10: an epoch on well-formed training data (as many stats as graphs, no
    graph without nodes, a positive [accum_grad]) runs to its end.  It
    resets the gradients first and saves the checkpoint of the epoch last,
    exactly once; between the two the optimizer calls are those of the steps
    whose 1-based index is a multiple of [accum_grad], in order, so the
    optimizer is stepped [epoch_save // accum_grad] times. *)
Theorem train_epoch_schedule (model_ll : list call → call → Q)
    (args : cmd_args) (train_graphs : list Nx.Graph) (stats : list (Z * Z))
    (epoch : Z) (w : world) :
  length stats = length train_graphs →
  Forall (λ g, Nx.len g ≠ 0) train_graphs →
  0 < accum_grad args →
  indices w ≡ₚ seq 0 (length train_graphs) →
  ∃ w' new,
    train_epoch model_ll args train_graphs stats epoch w = (Ok (), w')
    ∧ trace w' = trace w ++ new
    ∧ head new = Some zero_grad
    ∧ last new = Some (torch_save epoch)
    ∧ filter (λ c, is_save c) new = [torch_save epoch]
    ∧ filter (λ c, is_optimizer_call c) new
      = zero_grad :: concat (step_calls args <$> range (epoch_save args))
    ∧ length (filter (λ c, is_step c) new)
      = Z.to_nat (epoch_save args / accum_grad args).
Proof.
  intros Hlen Hnodes Hacc Hinv.
  destruct (train_epoch_run model_ll args train_graphs stats Hlen Hnodes
              ltac:(lia) epoch w Hinv)
    as (w' & rest & Hrun & _ & Ht & Ho & Hs & Hv).
  exists w', (zero_grad :: rest ++ [torch_save epoch]).
  split_and!; [done|done|done| | | |].
  - apply last_cons_snoc.
  - rewrite filter_cons, filter_app, Hv. done.
  - rewrite filter_cons, filter_app, Ho. simpl. by rewrite app_nil_r.
  - rewrite filter_cons, filter_app, Hs. simpl. rewrite app_nil_r.
    by apply step_taken_count.
Qed.

Lemma train_epoch_schedule_witness :
  ∃ w' new,
    train_epoch (λ _ _, 1%Q) demo_args [demo_graph; demo_graph]
      [(4, 1); (4, 1)] 0 (start [demo_graph; demo_graph] [])
    = (Ok (), w')
    ∧ trace w' = trace (start [demo_graph; demo_graph] []) ++ new
    ∧ head new = Some zero_grad
    ∧ last new = Some (torch_save 0)
    ∧ filter (λ c, is_save c) new = [torch_save 0]
    ∧ filter (λ c, is_optimizer_call c) new
      = zero_grad :: concat (step_calls demo_args <$> range (epoch_save demo_args))
    ∧ length (filter (λ c, is_step c) new)
      = Z.to_nat (epoch_save demo_args / accum_grad demo_args).
Proof.
  apply train_epoch_schedule.
  - reflexivity.
  - by repeat constructor.
  - reflexivity.
  - reflexivity.
Defined.

Lemma concat_singletons {A B} (f : A → B) (l : list A) :
  concat ((λ x, [f x]) <$> l) = f <$> l.
Proof. induction l as [|x l IH]; [done|]. simpl. f_equal. exact IH. Qed.

Lemma length_concat_const {A B} (x : list B) (l : list A) :
  length (concat ((λ _, x) <$> l)) = (length l * length x)%nat.
Proof.
  induction l as [|a l IH]; [done|]. rewrite fmap_cons. simpl.
  rewrite length_app, IH. lia.
Qed.

Lemma length_range (n : Z) : length (range n) = Z.to_nat n.
Proof. unfold range. by rewrite length_fmap, length_seq. Qed.

(** X11: the whole run on well-formed training data, from the pool
    [0, ..., len(train_graphs) - 1]: every epoch is run, the checkpoints
    saved are those of the epochs [0, ..., num_epochs - 1], one each and in
    order, and the optimizer is stepped [epoch_save // accum_grad] times in
    every epoch. *)
Theorem train_checkpoints (model_ll : list call → call → Q)
    (args : cmd_args) (train_graphs : list Nx.Graph) (stats : list (Z * Z))
    (tape0 : list nat) :
  length stats = length train_graphs →
  Forall (λ g, Nx.len g ≠ 0) train_graphs →
  0 < accum_grad args →
  ∃ w',
    train model_ll args train_graphs stats (start train_graphs tape0)
    = (Ok (), w')
    ∧ filter (λ c, is_save c) (trace w')
      = torch_save <$> range (num_epochs args)
    ∧ length (filter (λ c, is_step c) (trace w'))
      = (Z.to_nat (num_epochs args)
         * Z.to_nat (epoch_save args / accum_grad args))%nat.
Proof.
  intros Hlen Hnodes Hacc.
  destruct (for_each_filter
              (λ w, indices w ≡ₚ seq 0 (length train_graphs))
              (λ keep F,
                 (keep = is_save ∧ F = λ e, [torch_save e])
                 ∨ (keep = is_step
                    ∧ F = λ _, concat (step_taken args
                                         <$> range (epoch_save args))))
              (train_epoch model_ll args train_graphs stats)
              (range (num_epochs args)) (start train_graphs tape0))
    as (w' & new & Hrun & _ & Ht & Hf); [|done|].
  - intros epoch w Hinv.
    destruct (train_epoch_run model_ll args train_graphs stats Hlen Hnodes
                ltac:(lia) epoch w Hinv)
      as (w1 & rest & Hrun & Hinv1 & Ht & _ & Hs & Hv).
    exists w1, (zero_grad :: rest ++ [torch_save epoch]).
    split_and!; [done..|].
    intros keep F [[-> ->]|[-> ->]].
    + by rewrite filter_cons, filter_app, Hv.
    + rewrite filter_cons, filter_app, Hs. simpl. by rewrite app_nil_r.
  - exists w'. split; [done|]. simpl in Ht. rewrite Ht. split.
    + rewrite (Hf is_save (λ e, [torch_save e])) by by left.
      apply concat_singletons.
    + rewrite (Hf is_step _ (or_intror (conj eq_refl eq_refl))).
      rewrite length_concat_const, length_range.
      by rewrite step_taken_count.
Qed.

Lemma train_checkpoints_witness :
  ∃ w',
    train (λ _ _, 1%Q) demo_args [demo_graph; demo_graph] [(4, 1); (4, 1)]
      (start [demo_graph; demo_graph] [])
    = (Ok (), w')
    ∧ filter (λ c, is_save c) (trace w')
      = torch_save <$> range (num_epochs demo_args)
    ∧ length (filter (λ c, is_step c) (trace w'))
      = (Z.to_nat (num_epochs demo_args)
         * Z.to_nat (epoch_save demo_args / accum_grad demo_args))%nat.
Proof.
  apply train_checkpoints.
  - reflexivity.
  - by repeat constructor.
  - reflexivity.
Defined.

(** ** Gradients left over at a checkpoint *)

Lemma for_each_snoc {A} (body : A → M unit) (l : list A) (x : A) (w : world) :
  for_each (l ++ [x]) body w = (for_each l body ;;; body x) w.
Proof.
  revert w. induction l as [|a l IH]; intros w; simpl.
  - unfold bind, ret. by destruct (body x w) as [[[]|e] w'].
  - unfold bind in *. destruct (body a w) as [[u|e] w1]; [|done]. apply IH.
Qed.

Lemma range_snoc (n : Z) : 0 < n → range n = range (n - 1) ++ [n - 1].
Proof.
  intros Hn. unfold range.
  replace (Z.to_nat n) with (S (Z.to_nat (n - 1))) by lia.
  rewrite seq_S, fmap_app. simpl. do 2 f_equal. lia.
Qed.

Section epoch_leftover.
Context (model_ll : list call → call → Q) (args : cmd_args).
Context (train_graphs : list Nx.Graph) (stats : list (Z * Z)).
Hypothesis Hlen : length stats = length train_graphs.
Hypothesis Hnodes : Forall (λ g, Nx.len g ≠ 0) train_graphs.
Hypothesis Haccum : accum_grad args ≠ 0.
Hypothesis Hsave : 0 ≤ epoch_save args.

Lemma train_epoch_pending epoch w :
  indices w ≡ₚ seq 0 (length train_graphs) →
  ∃ w',
    train_epoch model_ll args train_graphs stats epoch w = (Ok (), w')
    ∧ indices w' ≡ₚ seq 0 (length train_graphs)
    ∧ (pending (trace w') = [] ↔ (accum_grad args | epoch_save args)).
Proof.
  intros Hinv. unfold train_epoch, bind at 1, emit at 1. unfold bind at 1.
  set (w0 := World (trace w ++ [zero_grad]) (indices w) (tape w)).
  destruct (decide (epoch_save args = 0)) as [Hz|Hnz].
  - rewrite Hz. simpl. unfold emit. simpl. eexists. split; [reflexivity|].
    simpl. split; [done|]. rewrite <- app_assoc. simpl.
    rewrite pending_after_reset. split; [|done]. intros _.
    apply Z.divide_0_r.
  - rewrite range_snoc, for_each_snoc by lia. unfold bind at 1.
    destruct (for_each_returns
                (λ w, indices w ≡ₚ seq 0 (length train_graphs))
                (train_step model_ll args train_graphs stats epoch)
                (range (epoch_save args - 1)) w0)
      as (w1 & -> & Hinv1); [|done|].
    { intros idx w1 Hinv1. by apply train_step_returns. }
    destruct (train_step_pending model_ll args train_graphs stats Hlen Hnodes
                Haccum epoch (epoch_save args - 1) w1 Hinv1)
      as (w2 & -> & Hinv2 & Hiff).
    replace (epoch_save args - 1 + 1) with (epoch_save args) in Hiff by lia.
    unfold emit. simpl. eexists. split; [reflexivity|]. simpl.
    split; [done|]. rewrite pending_app by (by repeat constructor).
    simpl. by rewrite app_nil_r.
Qed.
End epoch_leftover.

(** X12: on well-formed training data the gradient buffers are empty when
    the checkpoint of an epoch is saved exactly if [epoch_save] is a multiple
    of [accum_grad].  Otherwise the gradients of the steps after the last
    optimizer step are still pending; they are in no optimizer step at all,
    the next epoch resets the buffers before its first batch, so that what
    is pending after it is of its own calls. *)
Theorem train_epoch_leftover (model_ll : list call → call → Q)
    (args : cmd_args) (train_graphs : list Nx.Graph) (stats : list (Z * Z))
    (epoch : Z) (w : world) :
  length stats = length train_graphs →
  Forall (λ g, Nx.len g ≠ 0) train_graphs →
  accum_grad args ≠ 0 →
  0 ≤ epoch_save args →
  indices w ≡ₚ seq 0 (length train_graphs) →
  ∃ w',
    train_epoch model_ll args train_graphs stats epoch w = (Ok (), w')
    ∧ (pending (trace w') = [] ↔ (accum_grad args | epoch_save args))
    ∧ ∀ next, ∃ w'' new,
        train_epoch model_ll args train_graphs stats next w' = (Ok (), w'')
        ∧ trace w'' = trace w' ++ zero_grad :: new
        ∧ pending (trace w'') = pending new.
Proof.
  intros Hlen Hnodes Hacc Hsave Hinv.
  destruct (train_epoch_pending model_ll args train_graphs stats Hlen Hnodes
              Hacc Hsave epoch w Hinv) as (w' & Hrun & Hinv' & Hiff).
  exists w'. split_and!; [done..|]. intros next.
  destruct (train_epoch_run model_ll args train_graphs stats Hlen Hnodes
              Hacc next w' Hinv')
    as (w'' & rest & Hrun' & _ & Ht & _).
  exists w'', (rest ++ [torch_save next]). split_and!; [done..|].
  by rewrite Ht, pending_after_reset.
Qed.

Lemma train_epoch_leftover_witness :
  ∃ w',
    train_epoch (λ _ _, 1%Q) odd_args [demo_graph; demo_graph]
      [(4, 1); (4, 1)] 0 (start [demo_graph; demo_graph] [])
    = (Ok (), w')
    ∧ (pending (trace w') = [] ↔ (accum_grad odd_args | epoch_save odd_args))
    ∧ ∀ next, ∃ w'' new,
        train_epoch (λ _ _, 1%Q) odd_args [demo_graph; demo_graph]
          [(4, 1); (4, 1)] next w' = (Ok (), w'')
        ∧ trace w'' = trace w' ++ zero_grad :: new
        ∧ pending (trace w'') = pending new.
Proof.
  apply train_epoch_leftover.
  - reflexivity.
  - by repeat constructor.
  - done.
  - done.
  - reflexivity.
Defined.

(** ** The random walk of rw_tabular.py *)

Lemma frames_S (a : Z) (k : nat) : frames a (S k) = a :: frames (a + 1) k.
Proof.
  unfold frames. rewrite <- cons_seq, fmap_cons, <- fmap_S_seq.
  rewrite <- list_fmap_compose. f_equal; [lia|].
  apply list_fmap_ext. intros _ i _. simpl. lia.
Qed.

Lemma frames_range (k : nat) : frames 0 k = range (Z.of_nat k).
Proof. unfold frames, range. by rewrite Nat2Z.id. Qed.

Section random_walk.
Import RwTabular.
Context (env_step : Z → step_result) (file_path : string).

Let lines_of (t : Z) : list output :=
  [print_state (t + 1) (obs_state (env_step t));
   savefig (file_path +:+ format_int (t + 1) +:+ ".png")].

(** The loop, started after [num_frames st] frames with turns enough to
    reach frame 500: the frames it takes, where it stops, what it sums and
    what it puts out. *)
Lemma while_loop_spec (fuel : nat) (st : run) :
  max_num_frames - num_frames st ≤ Z.of_nat fuel →
  ∃ k : nat,
    let r := while_loop env_step file_path fuel st in
    num_frames r = num_frames st + Z.of_nat k
    ∧ (num_frames st < max_num_frames →
       (0 < k)%nat ∧ num_frames r ≤ max_num_frames
       ∧ (num_frames r < max_num_frames →
          done (env_step (num_frames r - 1)) = true))
    ∧ (∀ t, num_frames st ≤ t < num_frames r - 1 →
         done (env_step t) = false)
    ∧ undisc_return r
      = foldl (λ acc t, acc + reward (env_step t))%Q (undisc_return st)
          (frames (num_frames st) k)
    ∧ out r = out st ++ concat (lines_of <$> frames (num_frames st) k).
Proof.
  revert st. induction fuel as [|fuel IH]; intros st Hfuel.
  - exists 0%nat. unfold frames. simpl. rewrite app_nil_r.
    split_and!; [lia|lia|lia|done|done].
  - cbn [while_loop]. case_decide as Hlt.
    + unfold frame. destruct (done (env_step (num_frames st))) eqn:Hdone.
      * exists 1%nat. cbn [num_frames undisc_return out].
        split_and!; [lia| |lia| |].
        -- intros _. split_and!; [lia|lia|].
           intros _. by replace (num_frames st + 1 - 1) with (num_frames st) by lia.
        -- rewrite frames_S. done.
        -- rewrite frames_S. unfold frames. simpl. by rewrite ?app_nil_r.
      * match goal with |- context [while_loop _ _ fuel ?st'] =>
          destruct (IH st') as (k & Hn & Hstop & Hnot & Hsum & Hout);
          [cbn [num_frames]; lia|]; set (st1 := st') in * end.
        cbn [num_frames undisc_return out] in *.
        exists (S k). cbn zeta in *. split_and!.
        -- rewrite Hn. subst st1. cbn [num_frames]. lia.
        -- intros _. subst st1. cbn [num_frames] in *.
           destruct (decide (num_frames st + 1 < max_num_frames)) as [Hlt'|Hge].
           ++ destruct (Hstop Hlt') as (_ & Hle & Hd). split_and!; [lia|done|done].
           ++ unfold max_num_frames in *.
              assert (k = 0%nat ∨ (0 < k)%nat) as [->|Hk] by lia.
              ** split_and!; [lia|lia|lia].
              ** exfalso. destruct fuel as [|fuel']; [simpl in Hn; lia|].
                 cbn [while_loop] in Hn. rewrite decide_False in Hn by done.
                 cbn [num_frames] in Hn. lia.
        -- intros t Ht. destruct (decide (t = num_frames st)) as [->|Hne]; [done|].
           apply Hnot. subst st1. cbn [num_frames] in *. lia.
        -- rewrite Hsum, frames_S. subst st1. done.
        -- rewrite Hout, frames_S. subst st1. cbn [out num_frames].
           rewrite <- app_assoc. done.
    + exists 0%nat. unfold frames. simpl. rewrite app_nil_r.
      split_and!; [lia|lia|lia|done|done].
Qed.

Lemma saved_paths_lines (l : list Z) :
  saved_paths (concat (lines_of <$> l))
  = (λ t, file_path +:+ format_int (t + 1) +:+ ".png") <$> l.
Proof. induction l as [|t l IH]; [done|]. simpl. f_equal. exact IH. Qed.

Lemma image_path_inj (t t' : Z) :
  file_path +:+ format_int (t + 1) +:+ ".png"
  = file_path +:+ format_int (t' + 1) +:+ ".png" → t = t'.
Proof.
  intros H. apply (inj (String.app file_path)) in H.
  apply (sep_inj "." _ _ "png" "png") in H as [H _];
    [|by apply lacks_format_int; auto..].
  apply format_int_inj in H. lia.
Qed.
End random_walk.

(** X13: called with at most one argument the random walk takes at least
    one step and at most 500; it stops at the first step the environment
    reports as done, or after the 500th, and the return it prints is the sum
    of the rewards of the steps taken, in the order taken. *)
Theorem main_frames (env_step : Z → RwTabular.step_result)
    (file_path : string) (file_path_exists : bool) (argv : list string) :
  (length argv ≤ 1)%nat →
  ∃ r,
    RwTabular.main env_step file_path file_path_exists argv = Some r
    ∧ 1 ≤ RwTabular.num_frames r ≤ 500
    ∧ (∀ t, 0 ≤ t < RwTabular.num_frames r - 1 →
         RwTabular.done (env_step t) = false)
    ∧ (RwTabular.num_frames r < 500 →
         RwTabular.done (env_step (RwTabular.num_frames r - 1)) = true)
    ∧ RwTabular.undisc_return r
      = foldl (λ acc t, acc + RwTabular.reward (env_step t))%Q 0%Q
          (range (RwTabular.num_frames r))
    ∧ last (RwTabular.out r)
      = Some (RwTabular.print_return (RwTabular.undisc_return r)).
Proof.
  intros Hargv. unfold RwTabular.main. rewrite decide_False by lia.
  set (st0 := RwTabular.Run 0 0 _).
  destruct (while_loop_spec env_step file_path
              (Z.to_nat RwTabular.max_num_frames) st0)
    as (k & Hn & Hstop & Hnot & Hsum & _).
  { subst st0. unfold RwTabular.max_num_frames. simpl. lia. }
  cbn zeta in *. eexists. split; [reflexivity|].
  cbn [RwTabular.num_frames RwTabular.undisc_return RwTabular.out].
  subst st0. cbn [RwTabular.num_frames RwTabular.undisc_return] in *.
  unfold RwTabular.max_num_frames in *.
  destruct Hstop as (Hk & Hle & Hdone); [lia|].
  split_and!; [lia|lia|done|done| |by rewrite last_snoc].
  rewrite Hsum, frames_range, Hn. by rewrite Z.add_0_l.
Qed.

Lemma main_frames_witness :
  ∃ r,
    RwTabular.main demo_env "/tmp/rw_tabular" false ["rw_tabular.py"] = Some r
    ∧ 1 ≤ RwTabular.num_frames r ≤ 500
    ∧ (∀ t, 0 ≤ t < RwTabular.num_frames r - 1 →
         RwTabular.done (demo_env t) = false)
    ∧ (RwTabular.num_frames r < 500 →
         RwTabular.done (demo_env (RwTabular.num_frames r - 1)) = true)
    ∧ RwTabular.undisc_return r
      = foldl (λ acc t, acc + RwTabular.reward (demo_env t))%Q 0%Q
          (range (RwTabular.num_frames r))
    ∧ last (RwTabular.out r)
      = Some (RwTabular.print_return (RwTabular.undisc_return r)).
Proof. apply main_frames. simpl. lia. Defined.

(** X14: the images of a run are saved under [file_path + str(t) + '.png']
    for the frames [t = 1, ..., num_frames], in this order.  No two frames
    share a file, and what is added to [file_path] holds no [/]: the images
    are inside the directory the script creates only if [file_path] itself
    ends in a separator. *)
Theorem main_images (env_step : Z → RwTabular.step_result)
    (file_path : string) (file_path_exists : bool) (argv : list string) :
  (length argv ≤ 1)%nat →
  ∃ r,
    RwTabular.main env_step file_path file_path_exists argv = Some r
    ∧ saved_paths (RwTabular.out r)
      = (λ t, file_path +:+ format_int (t + 1) +:+ ".png")
          <$> range (RwTabular.num_frames r)
    ∧ NoDup (saved_paths (RwTabular.out r))
    ∧ (∀ p, p ∈ saved_paths (RwTabular.out r) →
         ∃ name, p = file_path +:+ name ∧ lacks "/" name = true).
Proof.
  intros Hargv. unfold RwTabular.main. rewrite decide_False by lia.
  set (st0 := RwTabular.Run 0 0 _).
  destruct (while_loop_spec env_step file_path
              (Z.to_nat RwTabular.max_num_frames) st0)
    as (k & Hn & _ & _ & _ & Hout).
  { subst st0. unfold RwTabular.max_num_frames. simpl. lia. }
  cbn zeta in *. eexists. split; [reflexivity|].
  cbn [RwTabular.num_frames RwTabular.undisc_return RwTabular.out].
  assert (Hpaths :
    saved_paths
      (RwTabular.out
         (RwTabular.while_loop env_step file_path
            (Z.to_nat RwTabular.max_num_frames) st0)
       ++ [RwTabular.print_return
             (RwTabular.undisc_return
                (RwTabular.while_loop env_step file_path
                   (Z.to_nat RwTabular.max_num_frames) st0))])
    = (λ t, file_path +:+ format_int (t + 1) +:+ ".png")
        <$> range (RwTabular.num_frames
                     (RwTabular.while_loop env_step file_path
                        (Z.to_nat RwTabular.max_num_frames) st0))).
  { rewrite Hout, Hn. subst st0.
    cbn [RwTabular.num_frames RwTabular.out].
    unfold saved_paths. rewrite !omap_app.
    fold (saved_paths (concat ((λ t,
            [RwTabular.print_state (t + 1) (RwTabular.obs_state (env_step t));
             RwTabular.savefig (file_path +:+ format_int (t + 1) +:+ ".png")])
            <$> frames 0 k))).
    rewrite saved_paths_lines, frames_range, Z.add_0_l.
    destruct file_path_exists; simpl; by rewrite app_nil_r. }
  rewrite Hpaths. split_and!; [done| |].
  - apply NoDup_fmap_2_strong.
    + intros t t' _ _ Heq. by apply (image_path_inj file_path).
    + unfold range. apply NoDup_fmap_2; [apply _|apply NoDup_seq].
  - intros p (t & -> & _)%list_elem_of_fmap.
    exists (format_int (t + 1) +:+ ".png"). split; [done|].
    rewrite lacks_app, lacks_format_int by auto. done.
Qed.

Lemma main_images_witness :
  ∃ r,
    RwTabular.main demo_env "/tmp/rw_tabular" false ["rw_tabular.py"] = Some r
    ∧ saved_paths (RwTabular.out r)
      = (λ t, "/tmp/rw_tabular" +:+ format_int (t + 1) +:+ ".png")
          <$> range (RwTabular.num_frames r)
    ∧ NoDup (saved_paths (RwTabular.out r))
    ∧ (∀ p, p ∈ saved_paths (RwTabular.out r) →
         ∃ name, p = "/tmp/rw_tabular" +:+ name ∧ lacks "/" name = true).
Proof. apply main_images. simpl. lia. Defined.
